(** * DuckLake write path: type codec, delete map, update operator, file cleanup

    A shallow embedding of
      - [common/ducklake_types.cpp]      ([DuckLakeTypes::FromString], [ToString]),
      - [storage/ducklake_delete.hpp]    ([DuckLakeDeleteMap]),
      - [storage/ducklake_update.cpp]    ([DuckLakeUpdate], [DuckLakeCatalog::PlanUpdate]),
      - [functions/ducklake_cleanup_files.cpp] ([CleanupBind], [DuckLakeCleanupExecute]),
    followed by the properties of the specification stated over it.

    Conventions.  A C++ function that can throw returns [Result A]; the
    exception carries its class, its format string and the format arguments
    exactly as they appear at the [throw].  Unsigned machine integers are [N]
    with the wrap-around written where the source can reach it; positions
    inside a container, which never exceed its size, are [nat]. *)

From Stdlib Require Import String Ascii List NArith ZArith Lia Bool.
From stdpp Require Import gmap strings list fin_maps.

Local Open Scope string_scope.

(* ===================================================================== *)
(** ** Logical types (the part of DuckDB's [LogicalType] the sources read) *)
(* ===================================================================== *)

(** DuckDB's [LogicalTypeId].  The members named in [DUCKLAKE_TYPES] and in
    [DuckLakeTypes::ToString] are the ones that matter; the others are the
    remaining members of the engine's enumeration. *)
Inductive LogicalTypeId : Set :=
  | INVALID | SQLNULL | UNKNOWN | ANY | USER
  | BOOLEAN | TINYINT | SMALLINT | INTEGER | BIGINT
  | DATE | TIME | TIMESTAMP_SEC | TIMESTAMP_MS | TIMESTAMP | TIMESTAMP_NS
  | DECIMAL | FLOAT | DOUBLE | CHAR | VARCHAR | BLOB | INTERVAL
  | UTINYINT | USMALLINT | UINTEGER | UBIGINT
  | TIMESTAMP_TZ | TIME_TZ | BIT | STRING_LITERAL | INTEGER_LITERAL | VARINT
  | UHUGEINT | HUGEINT | POINTER | VALIDITY | UUID
  | STRUCT | LIST | MAP | TABLE | ENUM | AGGREGATE_STATE | LAMBDA | UNION | ARRAY.

(** The numeric value of each member ([enum class LogicalTypeId : uint8_t]);
    [type.id() == other.id] compares these. *)
Definition LogicalTypeId_code (i : LogicalTypeId) : N :=
  match i with
  | INVALID => 0 | SQLNULL => 1 | UNKNOWN => 2 | ANY => 3 | USER => 4
  | BOOLEAN => 10 | TINYINT => 11 | SMALLINT => 12 | INTEGER => 13 | BIGINT => 14
  | DATE => 15 | TIME => 16 | TIMESTAMP_SEC => 17 | TIMESTAMP_MS => 18
  | TIMESTAMP => 19 | TIMESTAMP_NS => 20
  | DECIMAL => 21 | FLOAT => 22 | DOUBLE => 23 | CHAR => 24 | VARCHAR => 25
  | BLOB => 26 | INTERVAL => 27
  | UTINYINT => 28 | USMALLINT => 29 | UINTEGER => 30 | UBIGINT => 31
  | TIMESTAMP_TZ => 32 | TIME_TZ => 34 | BIT => 36
  | STRING_LITERAL => 37 | INTEGER_LITERAL => 38 | VARINT => 39
  | UHUGEINT => 49 | HUGEINT => 50 | POINTER => 51 | VALIDITY => 53 | UUID => 54
  | STRUCT => 100 | LIST => 101 | MAP => 102 | TABLE => 103 | ENUM => 104
  | AGGREGATE_STATE => 105 | LAMBDA => 106 | UNION => 107 | ARRAY => 108
  end%N.

Definition LogicalTypeId_eqb (a b : LogicalTypeId) : bool :=
  (LogicalTypeId_code a =? LogicalTypeId_code b)%N.

(** The extra type information hanging off a [LogicalType]: nothing, the
    width and scale of a decimal ([uint8_t] each), or the collation of a
    string type.  The alias, which DuckDB keeps in the same object, is a
    field of [LogicalType] below; an empty alias means "no alias". *)
Inductive ExtraTypeInfo : Set :=
  | NoTypeInfo
  | DecimalTypeInfo (width scale : N)
  | StringTypeInfo (collation : string).

Record LogicalType : Set := mkLogicalType {
  id : LogicalTypeId;
  alias : string;
  type_info : ExtraTypeInfo
}.

(** [LogicalType(LogicalTypeId)], the implicit conversion used by
    [return ducklake_type.id;]. *)
Definition LogicalType_of_id (i : LogicalTypeId) : LogicalType :=
  mkLogicalType i "" NoTypeInfo.

(** Narrowing of an [unsigned long long] to [uint8_t]. *)
Definition to_uint8 (n : N) : N := (n mod 256)%N.

(** [LogicalType::DECIMAL(uint8_t width, uint8_t scale)]. *)
Definition LogicalType_DECIMAL (width scale : N) : LogicalType :=
  mkLogicalType DECIMAL "" (DecimalTypeInfo (to_uint8 width) (to_uint8 scale)).

Definition SetAlias (a : string) (t : LogicalType) : LogicalType :=
  mkLogicalType (id t) a (type_info t).

Definition JSON_TYPE_NAME : string := "JSON".

(** [LogicalType::JSON()]: a VARCHAR carrying the alias ["JSON"]. *)
Definition LogicalType_JSON : LogicalType :=
  SetAlias JSON_TYPE_NAME (LogicalType_of_id VARCHAR).

Definition HasAlias (t : LogicalType) : bool :=
  negb (String.eqb (alias t) "").

Definition GetAlias (t : LogicalType) : string := alias t.

Definition IsJSONType (t : LogicalType) : bool :=
  LogicalTypeId_eqb (id t) VARCHAR && HasAlias t && String.eqb (GetAlias t) JSON_TYPE_NAME.

(** [StringType::GetCollation]: the empty string unless the type carries
    string type information. *)
Definition GetCollation (t : LogicalType) : string :=
  match type_info t with
  | StringTypeInfo c => c
  | _ => ""
  end.

(** [DecimalType::GetWidth] / [GetScale]; both assert that the decimal type
    information is present, hence the [option]. *)
Definition GetWidth (t : LogicalType) : option N :=
  match type_info t with
  | DecimalTypeInfo w _ => Some w
  | _ => None
  end.

Definition GetScale (t : LogicalType) : option N :=
  match type_info t with
  | DecimalTypeInfo _ s => Some s
  | _ => None
  end.

(* ===================================================================== *)
(** ** Exceptions and results *)
(* ===================================================================== *)

Inductive ExceptionClass : Set :=
  | InvalidInputException
  | NotImplementedException
  | InternalException
  | BinderException
  | std_invalid_argument
  | std_out_of_range.

Inductive FormatArg : Set :=
  | ArgString (s : string)
  | ArgType (t : LogicalType).

(** [throw C(fmt, args...)]. *)
Record Exception : Set := Throw {
  exn_class : ExceptionClass;
  exn_format : string;
  exn_args : list FormatArg
}.

Inductive Result (A : Type) : Type :=
  | Ok (a : A)
  | Raise (e : Exception).
Arguments Ok {A} a.
Arguments Raise {A} e.

Definition bind {A B} (r : Result A) (k : A -> Result B) : Result B :=
  match r with
  | Ok a => k a
  | Raise e => Raise e
  end.

Declare Scope result_scope.
Delimit Scope result_scope with result.
Notation "'do' x <- r ; k" := (bind r (fun x => k))
  (at level 10, x name, r at level 100, k at level 200) : result_scope.
Local Open Scope result_scope.

Definition is_Ok {A} (r : Result A) : bool :=
  match r with Ok _ => true | Raise _ => false end.

(** The class of the exception a computation ends with, if it throws. *)
Definition raised {A} (r : Result A) : option ExceptionClass :=
  match r with Ok _ => None | Raise e => Some (exn_class e) end.

(* ===================================================================== *)
(** ** String helpers of the engine and of the C++ standard library

    [StringUtil] is DuckDB's, [Std] the C++ standard library's; the codec
    and the cleanup functions call them.  They are given by what the
    libraries do on the byte strings involved. *)
(* ===================================================================== *)

Module StringUtil.

(** [StringUtil::CharacterToLower]: ASCII upper-case letters only. *)
Definition CharacterToLower (c : ascii) : ascii :=
  let n := N_of_ascii c in
  if ((65 <=? n) && (n <=? 90))%N then ascii_of_N (n + 32) else c.

(** [StringUtil::CIEquals]: same size and equal characters after
    lower-casing. *)
Fixpoint CIEquals (l1 l2 : string) : bool :=
  match l1, l2 with
  | EmptyString, EmptyString => true
  | String c1 r1, String c2 r2 =>
      Ascii.eqb (CharacterToLower c1) (CharacterToLower c2) && CIEquals r1 r2
  | _, _ => false
  end.

(** [StringUtil::StartsWith(str, prefix)]. *)
Definition StartsWith (str pre : string) : bool := String.prefix pre str.

(** [StringUtil::EndsWith(str, suffix)]. *)
Definition EndsWith (str suffix : string) : bool :=
  if (String.length str <? String.length suffix)%nat then false
  else String.eqb
         (String.substring (String.length str - String.length suffix)
                           (String.length suffix) str)
         suffix.

(** The loop of [StringUtil::SplitWithParentheses(str, ',', '(', ')')] over
    the characters [todo] still to read: [result] is kept in push order,
    [current] is the segment being built, [parentheses] the stack of open
    parentheses. *)
Fixpoint SplitLoop (delimiter par_open par_close : ascii) (str todo : string)
         (result : list string) (current : string) (parentheses : list ascii)
  : Result (list string * string * list ascii) :=
  match todo with
  | EmptyString => Ok (result, current, parentheses)
  | String c rest =>
      let parentheses1 :=
        if Ascii.eqb c par_open then c :: parentheses else parentheses in
      do parentheses2 <-
        (if Ascii.eqb c par_close then
           match parentheses1 with
           | _ :: below => Ok below
           | [] => Raise (Throw InvalidInputException
                            "Incongruent parentheses in string: '%s'" [ArgString str])
           end
         else Ok parentheses1);
      if (match parentheses2 with [] => true | _ => false end) && Ascii.eqb c delimiter
      then SplitLoop delimiter par_open par_close str rest
                     (result ++ [current])%list "" parentheses2
      else SplitLoop delimiter par_open par_close str rest result
                     (current +:+ String c "") parentheses2
  end.

Definition SplitWithParentheses (str : string) : Result (list string) :=
  do st <- SplitLoop "," "(" ")" str str [] "" [];
  let '(result, current, parentheses) := st in
  let result := if String.eqb current "" then result else (result ++ [current])%list in
  match parentheses with
  | [] => Ok result
  | _ :: _ => Raise (Throw InvalidInputException
                       "Incongruent parentheses in string: '%s'" [ArgString str])
  end.

End StringUtil.

Module Std.

(** [std::string::substr(pos, count)] with [size_t] arguments. *)
Definition substr (s : string) (pos count : N) : Result string :=
  if (N.of_nat (String.length s) <? pos)%N
  then Raise (Throw std_out_of_range "basic_string::substr" [])
  else Ok (String.substring (N.to_nat pos) (N.to_nat count) s).

(** Subtraction of [size_t] values. *)
Definition size_t_sub (a b : N) : N := ((a + 2 ^ 64 - b mod 2 ^ 64) mod 2 ^ 64)%N.

Definition ULLONG_MAX : N := (2 ^ 64 - 1)%N.

Definition isspace (c : ascii) : bool :=
  let n := N_of_ascii c in ((n =? 32) || ((9 <=? n) && (n <=? 13)))%N.

Definition isdigit (c : ascii) : bool :=
  let n := N_of_ascii c in ((48 <=? n) && (n <=? 57))%N.

Fixpoint skip_space (s : string) : string :=
  match s with
  | String c rest => if isspace c then skip_space rest else s
  | EmptyString => s
  end.

(** The digit run of [strtoull] in base 10: the value read so far and
    whether a digit was seen. *)
Fixpoint digits (s : string) (acc : N) (seen : bool) : N * bool :=
  match s with
  | String c rest =>
      if isdigit c then digits rest (acc * 10 + (N_of_ascii c - 48))%N true
      else (acc, seen)
  | EmptyString => (acc, seen)
  end.

(** [std::stoull(str)]: leading white space, an optional sign, decimal
    digits; trailing characters are ignored.  No digit is
    [std::invalid_argument], a value above [ULLONG_MAX] is
    [std::out_of_range], a minus sign negates modulo 2^64. *)
Definition stoull (str : string) : Result N :=
  let s := skip_space str in
  let '(negative, s) :=
    match s with
    | String "-" rest => (true, rest)
    | String "+" rest => (false, rest)
    | _ => (false, s)
    end in
  let '(value, seen) := digits s 0%N false in
  if negb seen then Raise (Throw std_invalid_argument "stoull" [])
  else if (ULLONG_MAX <? value)%N then Raise (Throw std_out_of_range "stoull" [])
  else Ok (if negative then size_t_sub 0 value else value).

Fixpoint to_string_loop (fuel : nat) (n : N) (acc : string) : string :=
  match fuel with
  | O => acc
  | S fuel =>
      let acc := String (ascii_of_N (48 + n mod 10)) acc in
      if (n / 10 =? 0)%N then acc else to_string_loop fuel (n / 10)%N acc
  end.

(** [std::to_string] of a non-negative integer: its decimal digits. *)
Definition to_string (n : N) : string :=
  to_string_loop (S (N.size_nat n)) n "".

(** A non-empty string of decimal digits. *)
Definition digit_string (s : string) : bool :=
  negb (String.eqb s "") && forallb isdigit (list_ascii_of_string s).

(** The values of a [uint8_t]. *)
Definition uint8_range : list N := map N.of_nat (seq 0 256).

(** [to_string n] is at most three digits and [stoull] reads [n] back from
    it; checked by evaluation on each [uint8_t] value. *)
Definition to_string_check (n : N) : bool :=
  digit_string (to_string n)
  && (String.length (to_string n) <=? 3)%nat
  && match stoull (to_string n) with
     | Ok v => (v =? n)%N
     | Raise _ => false
     end.

End Std.

(* ===================================================================== *)
(** ** The type codec, [common/ducklake_types.cpp] *)
(* ===================================================================== *)

Module DuckLakeTypes.

Record DefaultType : Set := mkDefaultType {
  name : string;
  type_id : LogicalTypeId
}.

Definition DUCKLAKE_TYPES : list DefaultType :=
  [ mkDefaultType "boolean" BOOLEAN;
    mkDefaultType "int8" TINYINT;
    mkDefaultType "int16" SMALLINT;
    mkDefaultType "int32" INTEGER;
    mkDefaultType "int64" BIGINT;
    mkDefaultType "int128" HUGEINT;
    mkDefaultType "uint8" UTINYINT;
    mkDefaultType "uint16" USMALLINT;
    mkDefaultType "uint32" UINTEGER;
    mkDefaultType "uint64" UBIGINT;
    mkDefaultType "uint128" UHUGEINT;
    mkDefaultType "float32" FLOAT;
    mkDefaultType "float64" DOUBLE;
    mkDefaultType "decimal" DECIMAL;
    mkDefaultType "time" TIME;
    mkDefaultType "date" DATE;
    mkDefaultType "timestamp" TIMESTAMP;
    mkDefaultType "timestamp_us" TIMESTAMP;
    mkDefaultType "timestamp_ms" TIMESTAMP_MS;
    mkDefaultType "timestamp_ns" TIMESTAMP_NS;
    mkDefaultType "timestamp_s" TIMESTAMP_SEC;
    mkDefaultType "timestamptz" TIMESTAMP_TZ;
    mkDefaultType "timetz" TIME_TZ;
    mkDefaultType "interval" INTERVAL;
    mkDefaultType "varchar" VARCHAR;
    mkDefaultType "blob" BLOB;
    mkDefaultType "uuid" UUID ].

(** The [for] loop of [ParseBaseType]: the first entry whose name equals
    [str] up to case. *)
Fixpoint ParseBaseType_loop (str : string) (types : list DefaultType) : option LogicalTypeId :=
  match types with
  | [] => None
  | ducklake_type :: rest =>
      if StringUtil.CIEquals str (name ducklake_type) then Some (type_id ducklake_type)
      else ParseBaseType_loop str rest
  end.

Definition ParseBaseType (str : string) : Result LogicalType :=
  match ParseBaseType_loop str DUCKLAKE_TYPES with
  | Some i => Ok (LogicalType_of_id i)
  | None =>
      if StringUtil.CIEquals str "json" then Ok LogicalType_JSON
      else if StringUtil.CIEquals str "geometry" then
        Ok (SetAlias "GEOMETRY" (LogicalType_of_id BLOB))
      else Raise (Throw InvalidInputException
                    "Failed to parse DuckLake type - unsupported type '%s'" [ArgString str])
  end.

(** The [for] loop of [ToStringBaseType]: the first entry with the type's id. *)
Fixpoint ToStringBaseType_loop (type : LogicalType) (types : list DefaultType) : option string :=
  match types with
  | [] => None
  | ducklake_type :: rest =>
      if LogicalTypeId_eqb (id type) (type_id ducklake_type) then Some (name ducklake_type)
      else ToStringBaseType_loop type rest
  end.

Definition ToStringBaseType (type : LogicalType) : Result string :=
  match ToStringBaseType_loop type DUCKLAKE_TYPES with
  | Some n => Ok n
  | None => Raise (Throw InvalidInputException
                     "Failed to convert DuckDB type to DuckLake - unsupported type %s"
                     [ArgType type])
  end.

(** The exception of the member-count check of [FromString]. *)
Definition MalformedDecimalSpec : Exception :=
  Throw NotImplementedException "Invalid DECIMAL type - expected width and scale" [].

(** The exception of the collation check of [ToString]. *)
Definition CollationsNotSupported : Exception :=
  Throw InvalidInputException "Collations are not supported in DuckLake storage" [].

Definition FromString (type : string) : Result LogicalType :=
  if StringUtil.StartsWith type "decimal(" && StringUtil.EndsWith type ")" then
    do decimal_members_str <-
      Std.substr type 8 (Std.size_t_sub (N.of_nat (String.length type)) 9);
    do decimal_members_vect <- StringUtil.SplitWithParentheses decimal_members_str;
    match decimal_members_vect with
    | [member0; member1] =>
        do width <- Std.stoull member0;
        do scale <- Std.stoull member1;
        Ok (LogicalType_DECIMAL width scale)
    | _ => Raise MalformedDecimalSpec
    end
  else ParseBaseType type.

(** [DecimalType::GetWidth(type)] and [GetScale(type)] assert that the
    decimal information is there; a DECIMAL id without it (what
    [ParseBaseType "decimal"] returns) trips the assertion. *)
Definition decimal_members (type : LogicalType) : Result (N * N) :=
  match GetWidth type, GetScale type with
  | Some w, Some s => Ok (w, s)
  | _, _ => Raise (Throw InternalException "Assertion triggered: DecimalTypeInfo" [])
  end.

Definition ToString (type : LogicalType) : Result string :=
  if HasAlias type then
    if IsJSONType type then Ok "json"
    else if String.eqb (GetAlias type) "GEOMETRY" && LogicalTypeId_eqb (id type) BLOB
    then Ok "geometry"
    else Raise (Throw InvalidInputException "Unsupported user-defined type" [])
  else
    match id type with
    | STRUCT => Ok "struct"
    | LIST => Ok "list"
    | MAP => Ok "map"
    | DECIMAL =>
        do ws <- decimal_members type;
        Ok ("decimal(" +:+ Std.to_string (fst ws) +:+ "," +:+ Std.to_string (snd ws) +:+ ")")
    | VARCHAR =>
        if negb (String.eqb (GetCollation type) "") then Raise CollationsNotSupported
        else ToStringBaseType type
    | _ => ToStringBaseType type
    end.

(** The types the round trip is about: the plain type of every entry of
    [DUCKLAKE_TYPES] other than the parameterless ["decimal"], and every
    decimal with its width and scale. *)
Inductive StoredType : LogicalType -> Prop :=
  | stored_base (e : DefaultType) :
      In e DUCKLAKE_TYPES -> type_id e <> DECIMAL ->
      StoredType (LogicalType_of_id (type_id e))
  | stored_decimal (width scale : N) :
      (scale <= width)%N -> (width < 256)%N ->
      StoredType (LogicalType_DECIMAL width scale).

End DuckLakeTypes.

(* ===================================================================== *)
(** ** The delete map, [storage/ducklake_delete.hpp] *)
(* ===================================================================== *)

(** Modelled from the spec: [DuckLakeDeleteData] is declared in
    [storage/ducklake_delete_filter.hpp]; it is the delete vector of one data
    file, the collection of row ids logically removed from it. *)
Record DuckLakeDeleteData : Set := mkDeleteData {
  deleted_rows : list N
}.

(** Modelled from the spec: [DuckLakeFileListExtendedEntry] is declared in
    [storage/ducklake_metadata_info.hpp]; the map only reads [file.path], the
    other members are the referenced delete file and the row count. *)
Record DuckLakeFileListExtendedEntry : Set := mkExtendedEntry {
  file_path : string;
  delete_file_path : string;
  row_count : N
}.

Module DuckLakeDeleteMap.

(** The two [unordered_map] members.  The [mutex] serialises the member
    functions, so each of them is one atomic transition of this state. *)
Record t : Type := mk {
  file_map : gmap string DuckLakeFileListExtendedEntry;
  delete_data_map : gmap string DuckLakeDeleteData
}.

Definition empty : t := mk ∅ ∅.

(** [std::unordered_map::emplace]: inserts only when the key is absent. *)
Definition emplace {V : Type} (key : string) (value : V) (m : gmap string V) : gmap string V :=
  match m !! key with
  | Some _ => m
  | None => <[key := value]> m
  end.

Definition AddExtendedFileInfo (file_entry : DuckLakeFileListExtendedEntry) (self : t) : t :=
  let filename := file_path file_entry in
  mk (emplace filename file_entry (file_map self)) (delete_data_map self).

Definition GetExtendedFileInfo (filename : string) (self : t)
  : Result DuckLakeFileListExtendedEntry :=
  match file_map self !! filename with
  | None => Raise (Throw InternalException
                     "Could not find matching file for written delete file" [])
  | Some delete_entry => Ok delete_entry
  end.

Definition GetDeleteData (filename : string) (self : t) : option DuckLakeDeleteData :=
  delete_data_map self !! filename.

Definition ClearDeletes (filename : string) (self : t) : t :=
  mk (file_map self) (delete filename (delete_data_map self)).

Definition AddDeleteData (filename : string) (delete_data : DuckLakeDeleteData) (self : t) : t :=
  mk (file_map self) (emplace filename delete_data (delete_data_map self)).

(** A sequence of [AddDeleteData] calls for one file. *)
Definition add_all (filename : string) (vectors : list DuckLakeDeleteData) (self : t) : t :=
  foldl (fun self delete_data => AddDeleteData filename delete_data self) self vectors.

(** The row ids recorded as deleted for a file: those of its delete vector,
    none when it has no vector. *)
Definition row_ids (filename : string) (self : t) : gset N :=
  match GetDeleteData filename self with
  | Some d => list_to_set (deleted_rows d)
  | None => ∅
  end.

End DuckLakeDeleteMap.

(* ===================================================================== *)
(** ** Values and data chunks of the engine *)
(* ===================================================================== *)

Inductive Value : Set :=
  | VNull
  | VBoolean (b : bool)
  | VBigInt (v : Z)
  | VUBigInt (v : N)
  | VVarchar (s : string)
  | VTimestampTZ (micros : Z).

(** A [DataChunk]: its column vectors and its cardinality. *)
Record DataChunk : Set := mkDataChunk {
  data : list (list Value);
  count : N
}.

Definition DataChunk_size (chunk : DataChunk) : N := count chunk.
Definition ColumnCount (chunk : DataChunk) : N := N.of_nat (length (data chunk)).

(** [chunk.data[i]] on the engine's bounds-checked vector. *)
Definition column (chunk : DataChunk) (i : N) : Result (list Value) :=
  match data chunk !! N.to_nat i with
  | Some v => Ok v
  | None => Raise (Throw InternalException
                     "Attempted to access index %ld within vector of size %ld" [])
  end.

Definition idx_t_add (a b : N) : N := ((a + b) mod 2 ^ 64)%N.

Definition INT64_MAX : N := (2 ^ 63 - 1)%N.

(** [NumericCast<int64_t>] of an [idx_t]. *)
Definition NumericCast_int64 (v : N) : Result Z :=
  if (INT64_MAX <? v)%N then
    Raise (Throw InternalException
             "Information loss on integer cast: value %d outside of target range [%d, %d]" [])
  else Ok (Z.of_N v).

(* ===================================================================== *)
(** ** The update operator, [storage/ducklake_update.cpp] *)
(* ===================================================================== *)

Inductive ExpressionType : Set :=
  | VALUE_DEFAULT
  | VALUE_CONSTANT
  | BOUND_REF
  | BOUND_FUNCTION.

#[warnings="-register-all"]
Inductive Expression : Set :=
  | BoundDefaultExpression (return_type : LogicalType)
  | BoundConstantExpression (value : Value)
  | BoundReferenceExpression (return_type : LogicalType) (index : N)
  | BoundFunctionExpression (function_name : string) (children : list Expression).

Definition expr_type (e : Expression) : ExpressionType :=
  match e with
  | BoundDefaultExpression _ => VALUE_DEFAULT
  | BoundConstantExpression _ => VALUE_CONSTANT
  | BoundReferenceExpression _ _ => BOUND_REF
  | BoundFunctionExpression _ _ => BOUND_FUNCTION
  end.

Definition is_VALUE_DEFAULT (e : Expression) : bool :=
  match expr_type e with VALUE_DEFAULT => true | _ => false end.

Inductive SinkCombineResultType : Set := FINISHED | BLOCKED.

Definition is_FINISHED (r : SinkCombineResultType) : bool :=
  match r with FINISHED => true | BLOCKED => false end.

Module DuckLakeUpdate.

(** The operator's members read by the sink: the update expressions and
    [row_id_index = columns.size()]. *)
Record Operator : Set := mkOperator {
  columns : list N;
  expressions : list Expression
}.

Definition row_id_index (op : Operator) : N := N.of_nat (length (columns op)).

(** [DuckLakeUpdateGlobalState], together with the sink states of the two
    child operators.  A child operator is represented by what the update
    operator does to it: the chunks passed to its [Sink], in call order. *)
Record GlobalState : Set := mkGlobal {
  total_updated_count : N;
  copy_sunk : list DataChunk;
  delete_sunk : list DataChunk
}.

(** [DuckLakeUpdateLocalState]. *)
Record LocalState : Set := mkLocal {
  insert_chunk : DataChunk;
  delete_chunk : DataChunk;
  updated_count : N
}.

Definition GetGlobalSinkState : GlobalState := mkGlobal 0 [] [].

Definition GetLocalSinkState : LocalState :=
  mkLocal (mkDataChunk [] 0) (mkDataChunk [] 0) 0.

Section Sink.

(** [ExpressionExecutor::Execute(chunk, result)] of the engine: the result
    columns of the expressions over the input chunk, or the exception the
    evaluation throws. *)
Variable Execute : list Expression -> DataChunk -> Result (list (list Value)).

(** The three row-id columns [chunk.data[delete_idx_start + i]], [i < 3]. *)
Definition delete_columns (chunk : DataChunk) : Result (list (list Value)) :=
  let delete_idx_start := Std.size_t_sub (ColumnCount chunk) 3 in
  do c0 <- column chunk (idx_t_add delete_idx_start 0);
  do c1 <- column chunk (idx_t_add delete_idx_start 1);
  do c2 <- column chunk (idx_t_add delete_idx_start 2);
  Ok [c0; c1; c2].

(** The chunk handed to [copy_op.Sink]: [insert_chunk] after
    [SetCardinality(chunk.size())], [Execute], and the reference of its last
    column to [chunk.data[row_id_index]]. *)
Definition make_insert_chunk (op : Operator) (chunk : DataChunk) : Result DataChunk :=
  do executed <- Execute (expressions op) chunk;
  do row_id_column <- column chunk (row_id_index op);
  Ok (mkDataChunk (executed ++ [row_id_column])%list (DataChunk_size chunk)).

(** The chunk handed to [delete_op.Sink]: [delete_chunk] after
    [SetCardinality(chunk.size())] and the three references. *)
Definition make_delete_chunk (chunk : DataChunk) : Result DataChunk :=
  do referenced <- delete_columns chunk;
  Ok (mkDataChunk referenced (DataChunk_size chunk)).

(** [DuckLakeUpdate::Sink]. *)
Definition Sink (op : Operator) (chunk : DataChunk) (g : GlobalState) (lstate : LocalState)
  : Result (GlobalState * LocalState) :=
  (* push the to-be-inserted data into the copy *)
  do insert_chunk <- make_insert_chunk op chunk;
  let copy_sunk := (copy_sunk g ++ [insert_chunk])%list in
  (* push the rowids into the delete *)
  do delete_chunk <- make_delete_chunk chunk;
  let delete_sunk := (delete_sunk g ++ [delete_chunk])%list in
  Ok (mkGlobal (total_updated_count g) copy_sunk delete_sunk,
      mkLocal insert_chunk delete_chunk
              (idx_t_add (updated_count lstate) (DataChunk_size chunk))).

Definition AsyncChild : Exception :=
  Throw InternalException "DuckLakeUpdate::Combine does not support async child operators" [].

(** [DuckLakeUpdate::Combine]; [copy_result] and [delete_result] are what
    [copy_op.Combine] and [delete_op.Combine] return. *)
Definition Combine (copy_result delete_result : SinkCombineResultType)
           (global_state : GlobalState) (local_state : LocalState) : Result GlobalState :=
  if negb (is_FINISHED copy_result) then Raise AsyncChild
  else if negb (is_FINISHED delete_result) then Raise AsyncChild
  else
    Ok (mkGlobal (idx_t_add (total_updated_count global_state) (updated_count local_state))
                 (copy_sunk global_state) (delete_sunk global_state)).

(** [DuckLakeUpdate::GetData]: one row holding the total. *)
Definition GetData (global_state : GlobalState) : Result DataChunk :=
  do value <- NumericCast_int64 (total_updated_count global_state);
  Ok (mkDataChunk [[VBigInt value]] 1).

(** What the engine does with a parallel sink: it creates a local state per
    worker thread, sinks that thread's chunks into it, and combines every
    local state once, in any interleaving across threads.  A combine event
    carries what the two child operators answer. *)
Inductive Event : Set :=
  | EvGetLocalSinkState (thread : nat)
  | EvSink (thread : nat) (chunk : DataChunk)
  | EvCombine (thread : nat) (copy_result delete_result : SinkCombineResultType).

Record Pipeline : Type := mkPipeline {
  global : GlobalState;
  locals : gmap nat LocalState
}.

Definition start : Pipeline := mkPipeline GetGlobalSinkState ∅.

(** A call the engine does not make (a local state created twice, or used
    when it is not live) has no counterpart in the source; a schedule that
    contains one stops here. *)
Definition protocol_violation {A} : Result A :=
  Raise (Throw InternalException "sink protocol violated" []).

Definition step (op : Operator) (p : Pipeline) (ev : Event) : Result Pipeline :=
  match ev with
  | EvGetLocalSinkState thread =>
      match locals p !! thread with
      | None => Ok (mkPipeline (global p) (<[thread := GetLocalSinkState]> (locals p)))
      | Some _ => protocol_violation
      end
  | EvSink thread chunk =>
      match locals p !! thread with
      | Some lstate =>
          do r <- Sink op chunk (global p) lstate;
          Ok (mkPipeline (fst r) (<[thread := snd r]> (locals p)))
      | None => protocol_violation
      end
  | EvCombine thread copy_result delete_result =>
      match locals p !! thread with
      | Some lstate =>
          do g <- Combine copy_result delete_result (global p) lstate;
          Ok (mkPipeline g (delete thread (locals p)))
      | None => protocol_violation
      end
  end.

Fixpoint run (op : Operator) (p : Pipeline) (events : list Event) : Result Pipeline :=
  match events with
  | [] => Ok p
  | ev :: rest => do p' <- step op p ev; run op p' rest
  end.

(** The chunks the engine sinks, in order. *)
Fixpoint sunk_chunks (events : list Event) : list DataChunk :=
  match events with
  | [] => []
  | EvSink _ chunk :: rest => chunk :: sunk_chunks rest
  | _ :: rest => sunk_chunks rest
  end.

(** The engine's side of the contract, as a check on a schedule: local
    states are created before use, used only while live, and all combined
    when the schedule ends; the child operators combine synchronously. *)
Fixpoint scheduled (live : gset nat) (events : list Event) : bool :=
  match events with
  | [] => bool_decide (live = ∅)
  | EvGetLocalSinkState thread :: rest =>
      bool_decide (thread ∉ live) && scheduled ({[thread]} ∪ live) rest
  | EvSink thread _ :: rest => bool_decide (thread ∈ live) && scheduled live rest
  | EvCombine thread copy_result delete_result :: rest =>
      bool_decide (thread ∈ live)
      && (is_FINISHED copy_result && is_FINISHED delete_result)
      && scheduled (live ∖ {[thread]}) rest
  end.

(** A chunk the sink can read: the expressions evaluate, and the row-id
    column and the three trailing row-identifier columns exist. *)
Definition sinkable (op : Operator) (chunk : DataChunk) : bool :=
  is_Ok (Execute (expressions op) chunk)
  && (row_id_index op <? ColumnCount chunk)%N
  && (3 <=? ColumnCount chunk)%N
  && (ColumnCount chunk <? 2 ^ 64)%N.

(** The number of rows of a list of chunks. *)
Definition rows (chunks : list DataChunk) : N :=
  foldr (fun chunk acc => (DataChunk_size chunk + acc)%N) 0%N chunks.

(** The rows counted by the local states that are not combined yet. *)
Definition pending (locals : gmap nat LocalState) : N :=
  map_fold (fun _ lstate acc => (updated_count lstate + acc)%N) 0%N locals.

(** What holds between the engine's calls: the chunks [sunk] so far are
    counted, modulo 2^64, by the global total and the live local states
    together, and each was handed once, in order, to both child sinks. *)
Record Inv (op : Operator) (p : Pipeline) (sunk : list DataChunk) : Prop := mkInv {
  inv_count :
    ((total_updated_count (global p) + pending (locals p)) mod 2 ^ 64 =
     rows sunk mod 2 ^ 64)%N;
  inv_total : (total_updated_count (global p) < 2 ^ 64)%N;
  inv_copy :
    Forall2 (fun chunk c => make_insert_chunk op chunk = Ok c) sunk (copy_sunk (global p));
  inv_delete :
    Forall2 (fun chunk c => make_delete_chunk chunk = Ok c) sunk (delete_sunk (global p))
}.

End Sink.

End DuckLakeUpdate.

(* ===================================================================== *)
(** ** Planning an update, [DuckLakeCatalog::PlanUpdate]

    The [default:] branches of the [switch] statements over
    [DuckLakeTransformType] and [CleanupType] are not reachable through the
    members of these enumerations and have no counterpart below. *)
(* ===================================================================== *)

Inductive DuckLakeTransformType : Set :=
  | IDENTITY | YEAR | MONTH | DAY | HOUR.

Record DuckLakePartitionField : Set := mkPartitionField {
  partition_key_index : N;
  transform : DuckLakeTransformType
}.

(** What [PlanUpdate] reads of the table through [DuckLakeCopyInput]. *)
Record DuckLakeTableEntry : Set := mkTableEntry {
  table_name : string;
  partition_data : option (list DuckLakePartitionField);
  encryption_key : string
}.

Record LogicalUpdate : Set := mkLogicalUpdate {
  return_chunk : bool;
  op_expressions : list Expression;
  op_columns : list N;
  table : DuckLakeTableEntry
}.

Inductive InsertVirtualColumns : Set := NONE | WRITE_ROW_ID.

(** Modelled from the spec: [DuckLakeInsert::PlanCopyForInsert],
    [DuckLakeDelete::PlanDelete] and [DuckLakeInsert::PlanInsert] are not
    among the sources; each is the rewrite, invalidate or register operator
    it adds to the physical plan, with the arguments [PlanUpdate] passes.
    The fourth operator is the update operator [PlanUpdate] makes itself.
    An operator refers to another by its position in the plan. *)
Inductive PhysicalOperator : Set :=
  | PhysicalCopyOp (virtual_columns : InsertVirtualColumns)
  | DuckLakeDeleteOp (child : nat) (row_id_indexes : list N) (key : string)
                     (allow_duplicates : bool)
  | DuckLakeInsertOp (key : string)
  | DuckLakeUpdateOp (columns : list N) (child copy_op delete_op insert_op : nat)
                     (expressions : list Expression).

Module Planner.

(** A planning step reads and extends the physical plan and may throw; the
    plan built so far survives the exception. *)
Definition M (A : Type) : Type :=
  list PhysicalOperator -> list PhysicalOperator * Result A.

Definition ret {A} (a : A) : M A := fun plan => (plan, Ok a).

Definition throw {A} (e : Exception) : M A := fun plan => (plan, Raise e).

Definition lift {A} (r : Result A) : M A := fun plan => (plan, r).

Definition bindM {A B} (m : M A) (k : A -> M B) : M B :=
  fun plan =>
    match m plan with
    | (plan', Ok a) => k a plan'
    | (plan', Raise e) => (plan', Raise e)
    end.

(** [planner.Make<Op>(...)]: appends the operator, returns a reference. *)
Definition Make (op : PhysicalOperator) : M nat :=
  fun plan => ((plan ++ [op])%list, Ok (length plan)).

End Planner.

Declare Scope plan_scope.
Delimit Scope plan_scope with plan.
Notation "'plan!' x <- m ; k" := (Planner.bindM m (fun x => k))
  (at level 10, x name, m at level 100, k at level 200) : plan_scope.

Module DuckLakeCatalog.

Section PlanUpdate.

(** [FunctionBinder::BindScalarFunction] of the engine. *)
Variable BindScalarFunction : string -> list Expression -> Result Expression.

Definition GetFunction (column_reference : Expression) (function_name : string)
  : Result Expression :=
  BindScalarFunction function_name [column_reference].

Definition GetPartitionExpressionForUpdate (column_reference : Expression)
           (field : DuckLakePartitionField) : Result Expression :=
  match transform field with
  | IDENTITY => Ok column_reference
  | YEAR => GetFunction column_reference "year"
  | MONTH => GetFunction column_reference "month"
  | DAY => GetFunction column_reference "day"
  | HOUR => GetFunction column_reference "hour"
  end.

(** [v[i]] on the engine's bounds-checked vector. *)
Definition at_index {A} (v : list A) (i : N) : Result A :=
  match v !! N.to_nat i with
  | Some a => Ok a
  | None => Raise (Throw InternalException
                     "Attempted to access index %ld within vector of size %ld" [])
  end.

(** [expression_map[op.columns[i].index] = i] for every [i]. *)
Fixpoint build_expression_map (columns : list N) (i : N) (expression_map : gmap N N)
  : gmap N N :=
  match columns with
  | [] => expression_map
  | column :: rest => build_expression_map rest (i + 1)%N (<[column := i]> expression_map)
  end.

(** [expressions.push_back(op.expressions[expression_map[i]]->Copy())] for
    [i] from [i] on, [n] times; [operator[]] yields 0 for a missing key. *)
Fixpoint reorder_expressions (op : LogicalUpdate) (expression_map : gmap N N)
         (n : nat) (i : N) (expressions : list Expression) : Result (list Expression) :=
  match n with
  | O => Ok expressions
  | S n =>
      do e <- at_index (op_expressions op) (default 0%N (expression_map !! i));
      reorder_expressions op expression_map n (i + 1)%N (expressions ++ [e])%list
  end.

Fixpoint add_partition_expressions (fields : list DuckLakePartitionField)
         (expressions : list Expression) : Result (list Expression) :=
  match fields with
  | [] => Ok expressions
  | field :: rest =>
      do child_expression <- at_index expressions (partition_key_index field);
      match child_expression with
      | BoundReferenceExpression return_type index =>
          let column_reference := BoundReferenceExpression return_type index in
          do e <- GetPartitionExpressionForUpdate column_reference field;
          add_partition_expressions rest (expressions ++ [e])%list
      | _ => Raise (Throw InternalException "Failed to cast expression to type" [])
      end
  end.

Definition ReturningNotSupported : Exception :=
  Throw BinderException "RETURNING clause not yet supported for updates of a DuckLake table" [].

Definition SetDefaultNotSupported : Exception :=
  Throw BinderException "SET DEFAULT is not yet supported for updates of a DuckLake table" [].

Local Open Scope plan_scope.

Definition PlanUpdate (op : LogicalUpdate) (child_plan : nat) : Planner.M nat :=
  if return_chunk op then
    Planner.throw ReturningNotSupported
  else if existsb is_VALUE_DEFAULT (op_expressions op) then
    Planner.throw SetDefaultNotSupported
  else
    let table := table op in
    plan! copy_op <- Planner.Make (PhysicalCopyOp WRITE_ROW_ID);
    (* plan the delete *)
    let row_id_indexes := [0; 1; 2]%N in
    plan! delete_op <-
      Planner.Make (DuckLakeDeleteOp child_plan row_id_indexes (encryption_key table) false);
    (* plan the actual insert *)
    plan! insert_op <- Planner.Make (DuckLakeInsertOp (encryption_key table));
    let expression_map := build_expression_map (op_columns op) 0 ∅ in
    plan! expressions <-
      Planner.lift (reorder_expressions op expression_map (length (op_columns op)) 0 []);
    plan! expressions <-
      Planner.lift (match partition_data table with
                    | Some fields => add_partition_expressions fields expressions
                    | None => Ok expressions
                    end);
    Planner.Make (DuckLakeUpdateOp (op_columns op) child_plan copy_op delete_op insert_op
                                   expressions).

End PlanUpdate.

End DuckLakeCatalog.

(* ===================================================================== *)
(** ** File cleanup, [functions/ducklake_cleanup_files.cpp] *)
(* ===================================================================== *)

Inductive CleanupType : Set := OLD_FILES | ORPHANED_FILES.

Record DuckLakeFileForCleanup : Set := mkFileForCleanup {
  file_id : N;
  path : string;
  time : Z
}.

(** The services the cleanup functions call: the metadata manager of the
    transaction, the file system, and the engine's timestamp printer.  Both
    stores are abstract; a removal is whatever transition the service
    makes, and the candidate query may read both stores (orphans are files
    on storage that no catalog row references). *)
Class CleanupServices : Type := {
  Metadata : Type;
  FileSystem : Type;
  GetFilesForCleanup :
    string -> CleanupType -> string -> FileSystem -> Metadata -> list DuckLakeFileForCleanup;
  RemoveFilesScheduledForCleanup : list DuckLakeFileForCleanup -> Metadata -> Metadata;
  TryRemoveFile : string -> FileSystem -> FileSystem;
  Timestamp_ToString : Z -> string;
  Separator : string
}.

Module Cleanup.

Section WithServices.

Context `{CleanupServices}.

Record World : Type := mkWorld {
  fs : FileSystem;
  metadata : Metadata
}.

Record CleanupBindData : Set := mkBindData {
  files : list DuckLakeFileForCleanup;
  dry_run : bool;
  default_interval : bool;
  type : CleanupType;
  timestamp_filter : string
}.

Definition GetFilter (self : CleanupBindData) : string :=
  if String.eqb (timestamp_filter self) "" then ""
  else
    let quote := if negb (default_interval self) then "'" else "" in
    match type self with
    | OLD_FILES => "WHERE schedule_start < '" +:+ timestamp_filter self +:+ "'"
    | ORPHANED_FILES =>
        " AND last_modified < " +:+ quote +:+ timestamp_filter self +:+ quote
    end.

Definition GetFunctionName (type : CleanupType) : string :=
  match type with
  | OLD_FILES => "ducklake_cleanup_old_files"
  | ORPHANED_FILES => "ducklake_delete_orphaned_files"
  end.

(** [Value::GetValue<timestamp_tz_t>()]. *)
Definition GetValue_timestamp_tz (v : Value) : Result Z :=
  match v with
  | VTimestampTZ micros => Ok micros
  | VNull => Raise (Throw InternalException
                      "Calling GetValueInternal on a value that is NULL" [])
  | _ => Raise (Throw InvalidInputException "Unimplemented type for GetValue()" [])
  end.

(** The locals the named-parameter loop of [CleanupBind] assigns. *)
Record BindFlags : Set := mkFlags {
  flag_dry_run : bool;
  cleanup_all : bool;
  has_timestamp : bool;
  from_timestamp : Z
}.

Definition initial_flags : BindFlags := mkFlags false false false 0.

(** [for (auto &entry : input.named_parameters) ...]. *)
Fixpoint named_parameters_loop (type : CleanupType) (named_parameters : list (string * Value))
         (flags : BindFlags) : Result BindFlags :=
  match named_parameters with
  | [] => Ok flags
  | entry :: rest =>
      if StringUtil.CIEquals (fst entry) "dry_run" then
        named_parameters_loop type rest
          (mkFlags true (cleanup_all flags) (has_timestamp flags) (from_timestamp flags))
      else if StringUtil.CIEquals (fst entry) "cleanup_all" then
        named_parameters_loop type rest
          (mkFlags (flag_dry_run flags) true (has_timestamp flags) (from_timestamp flags))
      else if StringUtil.CIEquals (fst entry) "older_than" then
        do ts <- GetValue_timestamp_tz (snd entry);
        named_parameters_loop type rest
          (mkFlags (flag_dry_run flags) (cleanup_all flags) true ts)
      else
        Raise (Throw InternalException "Unsupported named parameter for %s"
                     [ArgString (GetFunctionName type)])
  end.

(** The exception of the cutoff check of [CleanupBind]. *)
Definition InvalidCutoff (type : CleanupType) : Exception :=
  Throw InvalidInputException "%s: either cleanup_all OR older_than must be specified"
        [ArgString (GetFunctionName type)].

Record BindResult : Set := mkBindResult {
  bind_data : CleanupBindData;
  return_types : list LogicalType;
  names : list string
}.

(** [CleanupBind]; the catalog named by the first argument is the one of
    the world given. *)
Definition CleanupBind (named_parameters : list (string * Value)) (type : CleanupType)
           (older_than_default : string) (w : World) : Result BindResult :=
  do flags <- named_parameters_loop type named_parameters initial_flags;
  let cleanup_all := cleanup_all flags in
  let has_timestamp := has_timestamp flags in
  if (Bool.eqb cleanup_all has_timestamp && Bool.eqb cleanup_all true)
     || (Bool.eqb cleanup_all has_timestamp && Bool.eqb cleanup_all false
         && String.eqb older_than_default "")
  then
    Raise (InvalidCutoff type)
  else
    let '(timestamp_filter, default_interval) :=
      if has_timestamp then (Timestamp_ToString (from_timestamp flags), false)
      else if negb cleanup_all && negb (String.eqb older_than_default "") then
        ("NOW() - INTERVAL '" +:+ older_than_default +:+ "'", true)
      else ("", false) in
    let result := mkBindData [] (flag_dry_run flags) default_interval type timestamp_filter in
    let files :=
      GetFilesForCleanup (GetFilter result) type Separator (fs w) (metadata w) in
    Ok (mkBindResult
          (mkBindData files (flag_dry_run flags) default_interval type timestamp_filter)
          [LogicalType_of_id VARCHAR] ["path"]).




(** [DuckLakeCleanupData]. *)
Record DuckLakeCleanupData : Set := mkCleanupData {
  offset : nat;
  executed : bool
}.

Definition DuckLakeCleanupInit : DuckLakeCleanupData := mkCleanupData 0 false.

Definition STANDARD_VECTOR_SIZE : nat := 2048.

(** [while (state.offset < data.files.size() && count < STANDARD_VECTOR_SIZE)];
    [room] is [STANDARD_VECTOR_SIZE - count], [output] the values set so
    far. *)
Fixpoint output_loop (files : list DuckLakeFileForCleanup) (room : nat) (offset : nat)
         (output : list Value) : nat * list Value :=
  match room with
  | O => (offset, output)
  | S room =>
      match files !! offset with
      | Some file => output_loop files room (S offset) (output ++ [VVarchar (path file)])%list
      | None => (offset, output)
      end
  end.

(** [for (auto &file : data.files) fs.TryRemoveFile(file.path);] *)
Definition remove_files (files : list DuckLakeFileForCleanup) (f : FileSystem) : FileSystem :=
  foldl (fun f file => TryRemoveFile (path file) f) f files.

(** [DuckLakeCleanupExecute]: the world and the state after the call and
    the output chunk; an early return leaves the chunk empty. *)
Definition DuckLakeCleanupExecute (data : CleanupBindData) (state : DuckLakeCleanupData)
           (w : World) : World * DuckLakeCleanupData * DataChunk :=
  if (length (files data) <=? offset state)%nat then (w, state, mkDataChunk [[]] 0)
  else
    let '(w, executed) :=
      if negb (executed state) && negb (dry_run data) then
        (* delete the files *)
        let f := remove_files (files data) (fs w) in
        let m :=
          match type data with
          | OLD_FILES => RemoveFilesScheduledForCleanup (files data) (metadata w)
          | ORPHANED_FILES => metadata w
          end in
        (mkWorld f m, true)
      else (w, executed state) in
    let '(offset, output) := output_loop (files data) STANDARD_VECTOR_SIZE (offset state) [] in
    (w, mkCleanupData offset executed, mkDataChunk [output] (N.of_nat (length output))).

(** The engine pulls from the table function until a call returns an empty
    chunk; [calls] bounds the number of calls. *)
Fixpoint pull (calls : nat) (data : CleanupBindData) (state : DuckLakeCleanupData) (w : World)
  : option (World * DuckLakeCleanupData * list DataChunk) :=
  match calls with
  | O => None
  | S calls =>
      let '(w', state', output) := DuckLakeCleanupExecute data state w in
      if (count output =? 0)%N then Some (w', state', [])
      else
        match pull calls data state' w' with
        | Some (w'', state'', outputs) => Some (w'', state'', output :: outputs)
        | None => None
        end
  end.

(** The rows of the [path] column over all output chunks. *)
Definition output_rows (outputs : list DataChunk) : list Value :=
  concat (map (fun chunk => concat (data chunk)) outputs).

(** A named parameter is supplied when an entry carries its name, up to
    case. *)
Definition supplied (option : string) (named_parameters : list (string * Value)) : bool :=
  existsb (fun entry => StringUtil.CIEquals (fst entry) option) named_parameters.


(** Replaces the value supplied for [dry_run] and for [cleanup_all]. *)
Definition revalue (f : Value -> Value) (entry : string * Value) : string * Value :=
  if StringUtil.CIEquals (fst entry) "dry_run" || StringUtil.CIEquals (fst entry) "cleanup_all"
  then (fst entry, f (snd entry)) else entry.

(** What the removal block of [DuckLakeCleanupExecute] does to the world. *)
Definition cleanup_effect (data : CleanupBindData) (w : World) : World :=
  mkWorld (remove_files (files data) (fs w))
          (match type data with
           | OLD_FILES => RemoveFilesScheduledForCleanup (files data) (metadata w)
           | ORPHANED_FILES => metadata w
           end).

(** The candidate paths, as the values of the [path] column. *)
Definition paths (files : list DuckLakeFileForCleanup) : list Value :=
  map (fun file => VVarchar (path file)) files.

End WithServices.

End Cleanup.

(* ===================================================================== *)
(** ** Further notions of the type codec *)
(* ===================================================================== *)

(** The exception of [ParseBaseType] for a token outside the vocabulary. *)
Definition UnsupportedTypeToken (str : string) : Exception :=
  Throw InvalidInputException "Failed to parse DuckLake type - unsupported type '%s'"
        [ArgString str].

(** The number a string of decimal digits denotes, as the digit run of
    [std::stoull] reads it. *)
Definition decimal_value (d : string) : N := fst (Std.digits d 0%N false).

(** The members of a decimal token written out, separated by commas. *)
Fixpoint join_commas (members : list string) : string :=
  match members with
  | [] => ""
  | [member] => member
  | member :: rest => member +:+ "," +:+ join_commas rest
  end.

(* ===================================================================== *)
(** ** Sequences of file-info registrations in the delete map *)
(* ===================================================================== *)

(** The exception of [GetExtendedFileInfo] for a path that was not added. *)
Definition MissingFileInfo : Exception :=
  Throw InternalException "Could not find matching file for written delete file" [].

(** [AddExtendedFileInfo] called for each entry in turn. *)
Definition add_infos (entries : list DuckLakeFileListExtendedEntry)
           (self : DuckLakeDeleteMap.t) : DuckLakeDeleteMap.t :=
  foldl (fun self file_entry => DuckLakeDeleteMap.AddExtendedFileInfo file_entry self)
        self entries.

(** The first of the entries whose file has the given path. *)
Definition first_for (filename : string) (entries : list DuckLakeFileListExtendedEntry)
  : option DuckLakeFileListExtendedEntry :=
  List.find (fun file_entry => String.eqb (file_path file_entry) filename) entries.

(* ===================================================================== *)
(** ** [DuckLakeUpdate::Finalize] *)
(* ===================================================================== *)

Module SinkFinalizeType.
Inductive t : Set := READY | NO_OUTPUT_POSSIBLE | BLOCKED.
Definition is_READY (r : t) : bool := match r with READY => true | _ => false end.
End SinkFinalizeType.

Module SourceResultType.
Inductive t : Set := HAVE_MORE_OUTPUT | FINISHED | BLOCKED.
Definition is_BLOCKED (r : t) : bool := match r with BLOCKED => true | _ => false end.
Definition is_FINISHED (r : t) : bool := match r with FINISHED => true | _ => false end.
End SourceResultType.

Module SinkResultType.
Inductive t : Set := NEED_MORE_INPUT | FINISHED | BLOCKED.
Definition is_BLOCKED (r : t) : bool := match r with BLOCKED => true | _ => false end.
End SinkResultType.

Module DuckLakeUpdateFinalize.

Definition AsyncChild : Exception :=
  Throw InternalException "DuckLakeUpdate::Finalize does not support async child operators" [].

Section Children.

(** What the child operators answer.  [copy_GetData n] is the chunk and the
    result of the call of [copy_op.GetData] that follows [n] earlier calls;
    [insert_Sink n chunk] is the result of [insert_op.Sink] on [chunk] after
    [n] earlier calls. *)
Variable copy_GetData : nat -> DataChunk * SourceResultType.t.
Variable insert_Sink : nat -> DataChunk -> SinkResultType.t.

(** The loop [while (true)] that scans the copy operator and sinks into the
    insert operator, from call [call] on; [sunk] are the chunks passed to
    [insert_op.Sink] so far.  [fuel] bounds the number of iterations: a
    source that never ends gives [None]. *)
Fixpoint replay (fuel : nat) (call : nat) (sunk : list DataChunk)
  : option (list DataChunk * Result unit) :=
  match fuel with
  | O => None
  | S fuel =>
      let '(copy_source_chunk, source_result) := copy_GetData call in
      if (DataChunk_size copy_source_chunk =? 0)%N then Some (sunk, Ok tt)
      else if SourceResultType.is_BLOCKED source_result then Some (sunk, Raise AsyncChild)
      else
        let sink_result := insert_Sink call copy_source_chunk in
        let sunk := (sunk ++ [copy_source_chunk])%list in
        if SinkResultType.is_BLOCKED sink_result then Some (sunk, Raise AsyncChild)
        else if SourceResultType.is_FINISHED source_result then Some (sunk, Ok tt)
        else replay fuel (S call) sunk
  end.

(** [DuckLakeUpdate::Finalize]: the chunks sunk into the insert operator and
    the result or the exception. *)
Definition Finalize (fuel : nat)
           (copy_finalize delete_finalize insert_finalize : SinkFinalizeType.t)
  : option (list DataChunk * Result SinkFinalizeType.t) :=
  if negb (SinkFinalizeType.is_READY copy_finalize) then Some ([], Raise AsyncChild)
  else if negb (SinkFinalizeType.is_READY delete_finalize) then Some ([], Raise AsyncChild)
  else
    match replay fuel 0 [] with
    | None => None
    | Some (sunk, Raise e) => Some (sunk, Raise e)
    | Some (sunk, Ok _) =>
        if negb (SinkFinalizeType.is_READY insert_finalize) then Some (sunk, Raise AsyncChild)
        else Some (sunk, Ok SinkFinalizeType.READY)
    end.

(** The chunks of the first [n] calls of [copy_op.GetData]. *)
Definition produced (n : nat) : list DataChunk :=
  map (fun call => fst (copy_GetData call)) (seq 0 n).

(** The copy operator ends at call [n]: the earlier calls return non-empty
    chunks with more output to come, and call [n] returns an empty chunk or
    reports that it is finished. *)
Definition ends_at (n : nat) : Prop :=
  (forall call, (call < n)%nat ->
     DataChunk_size (fst (copy_GetData call)) <> 0%N /\
     snd (copy_GetData call) = SourceResultType.HAVE_MORE_OUTPUT) /\
  (DataChunk_size (fst (copy_GetData n)) = 0%N \/
   snd (copy_GetData n) = SourceResultType.FINISHED).

(** The last chunk counts when it is not empty. *)
Definition last_chunk (n : nat) : list DataChunk :=
  if (DataChunk_size (fst (copy_GetData n)) =? 0)%N then [] else [fst (copy_GetData n)].

End Children.

End DuckLakeUpdateFinalize.

(** The answers the child operators give at the combine events of a
    schedule of [DuckLakeUpdate]. *)
Fixpoint combine_results (events : list DuckLakeUpdate.Event) : list SinkCombineResultType :=
  match events with
  | [] => []
  | DuckLakeUpdate.EvCombine _ copy_result delete_result :: rest =>
      copy_result :: delete_result :: combine_results rest
  | _ :: rest => combine_results rest
  end.

(** The chunks of a list that hold rows. *)
Definition nonempty_chunks (chunks : list DataChunk) : list DataChunk :=
  List.filter (fun chunk => negb (DataChunk_size chunk =? 0)%N) chunks.

(** Modelled from the spec: the copy operator as a source.  The operator
    that [DuckLakeInsert::PlanCopyForInsert] builds, whose [GetData]
    [DuckLakeUpdate::Finalize] scans, is not among the sources.  The spec
    has the register step drain "everything Rewrite buffered (acting as a
    completed, file-backed or in-memory intermediate result)": the scan
    returns the chunks that were sunk into the copy operator, in the order
    sunk, one per call with more output to come, and after the last one an
    empty chunk with [FINISHED].  A chunk without rows holds nothing of the
    result and is not returned. *)
Definition copy_op_GetData (copy_sunk : list DataChunk) (call : nat)
  : DataChunk * SourceResultType.t :=
  match nonempty_chunks copy_sunk !! call with
  | Some chunk => (chunk, SourceResultType.HAVE_MORE_OUTPUT)
  | None => (mkDataChunk [] 0, SourceResultType.FINISHED)
  end.

(* ===================================================================== *)
(** ** Binding an update, [DuckLakeTableEntry::BindUpdateConstraints] *)
(* ===================================================================== *)

Module BindUpdate.

(** A physical column of the table: [column.Physical().index] and
    [column.Type()]. *)
Record ColumnDefinition : Set := mkColumn {
  Physical : N;
  Type_ : LogicalType
}.

Section Expressions.

(** The binder's expressions, and [BoundColumnRefExpression(type,
    ColumnBinding(table_index, column_index))] among them. *)
Variable Expr : Type.
Variable BoundColumnRefExpression : LogicalType -> N -> N -> Expr.

(** What the function reads and writes of [get], [proj] and [update]. *)
Record LogicalGet : Type := mkGet {
  get_table_index : N;
  column_ids : list N
}.

Record LogicalProjection : Type := mkProjection {
  proj_table_index : N;
  proj_expressions : list Expr
}.

Record Update : Type := mkUpdate {
  columns : list N;
  expressions : list Expr;
  update_is_del_and_insert : bool
}.

(** [for (idx_t i = 0; ...) if (column_ids[i].GetPrimaryIndex() == index)]:
    the first position from [i] on that holds the index. *)
Fixpoint find_column_id (index : N) (column_ids : list N) (i : N) : option N :=
  match column_ids with
  | [] => None
  | id :: rest => if (id =? index)%N then Some i else find_column_id index rest (i + 1)%N
  end.

(** The body of the loop over the table's physical columns. *)
Definition bind_column (st : LogicalGet * LogicalProjection * Update)
           (column : ColumnDefinition) : LogicalGet * LogicalProjection * Update :=
  let '(get, proj, update) := st in
  let physical_index := Physical column in
  let found := existsb (fun col => (col =? physical_index)%N) (columns update) in
  if found then st (* already updated *)
  else
    (* check if the column is already projected *)
    let '(column_id_index, get) :=
      match find_column_id physical_index (column_ids get) 0 with
      | Some i => (i, get)
      | None =>
          (* not yet projected - add to a projection list *)
          (N.of_nat (length (column_ids get)),
           mkGet (get_table_index get) (column_ids get ++ [physical_index])%list)
      end in
    let update_expressions :=
      (expressions update ++
       [BoundColumnRefExpression (Type_ column) (proj_table_index proj)
                                 (N.of_nat (length (proj_expressions proj)))])%list in
    let proj :=
      mkProjection (proj_table_index proj)
        (proj_expressions proj ++
         [BoundColumnRefExpression (Type_ column) (get_table_index get) column_id_index])%list in
    let get := mkGet (get_table_index get) (column_ids get ++ [physical_index])%list in
    (get, proj,
     mkUpdate (columns update ++ [physical_index])%list update_expressions
              (update_is_del_and_insert update)).

Definition BindUpdateConstraints (table_columns : list ColumnDefinition)
           (get : LogicalGet) (proj : LogicalProjection) (update : Update)
  : LogicalGet * LogicalProjection * Update :=
  (* all updates in DuckLake are deletes + inserts *)
  let update := mkUpdate (columns update) (expressions update) true in
  foldl bind_column (get, proj, update) table_columns.

(** What an added column leaves behind: its place [k] among the added
    columns wires the update expression to the projection expression and
    that one to a column id of the get that is the column's. *)
Definition wired (st0 st : LogicalGet * LogicalProjection * Update) : Prop :=
  let '(get0, proj0, update0) := st0 in
  let '(get, proj, update) := st in
  get_table_index get = get_table_index get0 /\
  proj_table_index proj = proj_table_index proj0 /\
  update_is_del_and_insert update = update_is_del_and_insert update0 /\
  (exists more, column_ids get = (column_ids get0 ++ more)%list) /\
  (exists added,
     columns update = (columns update0 ++ map Physical added)%list /\
     length (expressions update) = (length (expressions update0) + length added)%nat /\
     length (proj_expressions proj) = (length (proj_expressions proj0) + length added)%nat /\
     (forall k, (k < length (expressions update0))%nat ->
        expressions update !! k = expressions update0 !! k) /\
     (forall k, (k < length (proj_expressions proj0))%nat ->
        proj_expressions proj !! k = proj_expressions proj0 !! k) /\
     Forall (fun column => Physical column ∉ columns update0) added /\
     NoDup (map Physical added) /\
     forall k column, added !! k = Some column ->
       exists i,
         expressions update !! (length (expressions update0) + k)%nat =
           Some (BoundColumnRefExpression (Type_ column) (proj_table_index proj0)
                           (N.of_nat (length (proj_expressions proj0) + k))) /\
         proj_expressions proj !! (length (proj_expressions proj0) + k)%nat =
           Some (BoundColumnRefExpression (Type_ column) (get_table_index get0) i) /\
         column_ids get !! N.to_nat i = Some (Physical column)).

End Expressions.

Arguments mkProjection {Expr}.
Arguments proj_table_index {Expr}.
Arguments proj_expressions {Expr}.
Arguments mkUpdate {Expr}.
Arguments columns {Expr}.
Arguments expressions {Expr}.
Arguments update_is_del_and_insert {Expr}.
Arguments bind_column {Expr}.
Arguments BindUpdateConstraints {Expr}.
Arguments wired {Expr}.

End BindUpdate.

(* ===================================================================== *)
(** ** Example inputs *)
(* ===================================================================== *)

Module Examples.

(** An expression executor for column references and constants. *)
Definition Execute_one (chunk : DataChunk) (e : Expression) : Result (list Value) :=
  match e with
  | BoundReferenceExpression _ index => column chunk index
  | BoundConstantExpression value => Ok (replicate (N.to_nat (count chunk)) value)
  | _ => Raise (Throw NotImplementedException "expression" [])
  end.

Fixpoint Execute (expressions : list Expression) (chunk : DataChunk)
  : Result (list (list Value)) :=
  match expressions with
  | [] => Ok []
  | e :: rest =>
      do v <- Execute_one chunk e;
      do vs <- Execute rest chunk;
      Ok (v :: vs)
  end.

(** [UPDATE t SET a = 7] on a one-column table: the child projects the new
    value, the row id, and the three row-identifier columns. *)
Definition update_op : DuckLakeUpdate.Operator :=
  DuckLakeUpdate.mkOperator [0%N] [BoundReferenceExpression (LogicalType_of_id INTEGER) 0].

Definition chunk_of (file : string) (row_ids : list Z) : DataChunk :=
  mkDataChunk
    [ map (fun _ => VBigInt 7) row_ids;
      map VBigInt row_ids;
      map (fun _ => VVarchar file) row_ids;
      map (fun r => VUBigInt (Z.to_N r)) row_ids;
      map VBigInt row_ids ]
    (N.of_nat (length row_ids)).

(** Two worker threads, three chunks, five rows. *)
Definition schedule : list DuckLakeUpdate.Event :=
  [ DuckLakeUpdate.EvGetLocalSinkState 0;
    DuckLakeUpdate.EvGetLocalSinkState 1;
    DuckLakeUpdate.EvSink 0 (chunk_of "a.parquet" [0; 1]%Z);
    DuckLakeUpdate.EvSink 1 (chunk_of "b.parquet" [5]%Z);
    DuckLakeUpdate.EvCombine 1 FINISHED FINISHED;
    DuckLakeUpdate.EvSink 0 (chunk_of "a.parquet" [2; 3]%Z);
    DuckLakeUpdate.EvCombine 0 FINISHED FINISHED ].

(** A file system as the set of paths that exist and a catalog as the rows
    scheduled for cleanup; every scheduled row is a candidate. *)
Definition services : CleanupServices := {|
  Metadata := list DuckLakeFileForCleanup;
  FileSystem := gset string;
  GetFilesForCleanup := fun _ _ _ _ m => m;
  RemoveFilesScheduledForCleanup := fun files m =>
    filter (fun row => forallb (fun file => negb (file_id file =? file_id row)%N) files = true) m;
  TryRemoveFile := fun path f => f ∖ {[path]};
  Timestamp_ToString := fun micros => Std.to_string (Z.to_N micros);
  Separator := "/"
|}.

Definition candidates : list DuckLakeFileForCleanup :=
  [ mkFileForCleanup 1 "data/a.parquet" 10; mkFileForCleanup 2 "data/b.parquet" 20 ].

Definition world : @Cleanup.World services :=
  @Cleanup.mkWorld services {["data/a.parquet"; "data/b.parquet"]} candidates.

(** A copy operator that returns two chunks and then is finished, and one
    whose second call is blocked; an insert operator that always asks for
    more input. *)
Definition copy_source (call : nat) : DataChunk * SourceResultType.t :=
  match call with
  | 0%nat => (chunk_of "a.parquet" [0; 1]%Z, SourceResultType.HAVE_MORE_OUTPUT)
  | 1%nat => (chunk_of "b.parquet" [5]%Z, SourceResultType.FINISHED)
  | _ => (mkDataChunk [] 0, SourceResultType.FINISHED)
  end.

Definition blocked_source (call : nat) : DataChunk * SourceResultType.t :=
  match call with
  | 0%nat => (chunk_of "a.parquet" [0; 1]%Z, SourceResultType.HAVE_MORE_OUTPUT)
  | _ => (chunk_of "b.parquet" [5]%Z, SourceResultType.BLOCKED)
  end.

Definition insert_sink (call : nat) (chunk : DataChunk) : SinkResultType.t :=
  SinkResultType.NEED_MORE_INPUT.

(** [UPDATE t SET b = ..., a = ...] on a table partitioned by the year of
    its first column, and a function binder that always binds. *)
Definition bind_function (function_name : string) (children : list Expression)
  : Result Expression :=
  Ok (BoundFunctionExpression function_name children).

Definition logical_update : LogicalUpdate :=
  mkLogicalUpdate false
    [ BoundReferenceExpression (LogicalType_of_id VARCHAR) 5;
      BoundReferenceExpression (LogicalType_of_id DATE) 4 ]
    [1%N; 0%N]
    (mkTableEntry "t" (Some [mkPartitionField 0 YEAR]) "").

(** A table of three physical columns; the update sets the second one, the
    scan reads the first and the second, the projection computes one
    expression. *)
Definition column_ref (type : LogicalType) (table_index column_index : N)
  : LogicalType * N * N := (type, table_index, column_index).

Definition table_columns : list BindUpdate.ColumnDefinition :=
  [ BindUpdate.mkColumn 0 (LogicalType_of_id INTEGER);
    BindUpdate.mkColumn 1 (LogicalType_of_id VARCHAR);
    BindUpdate.mkColumn 2 (LogicalType_of_id DOUBLE) ].

Definition bound_get : BindUpdate.LogicalGet := BindUpdate.mkGet 0 [0; 1]%N.

Definition bound_proj : BindUpdate.LogicalProjection (LogicalType * N * N) :=
  BindUpdate.mkProjection 1 [column_ref (LogicalType_of_id VARCHAR) 0 1].

Definition bound_update : BindUpdate.Update (LogicalType * N * N) :=
  BindUpdate.mkUpdate [1%N] [column_ref (LogicalType_of_id VARCHAR) 1 0] false.

End Examples.

(* ===================================================================== *)
(** * Properties *)
(* ===================================================================== *)

(** ** Strings *)

Section StringFacts.

Lemma append_cons c (a b : string) : String c a +:+ b = String c (a +:+ b).
Proof. reflexivity. Qed.

Lemma append_nil (b : string) : "" +:+ b = b.
Proof. reflexivity. Qed.

Lemma append_snoc (a : string) c (b : string) :
  (a +:+ String c "") +:+ b = a +:+ String c b.
Proof.
  induction a as [|x a IH]; [reflexivity|].
  rewrite !append_cons. f_equal. exact IH.
Qed.

Lemma append_empty_r (a : string) : a +:+ "" = a.
Proof.
  induction a as [|x a IH]; [reflexivity|].
  rewrite append_cons. f_equal. exact IH.
Qed.

Lemma append_assoc (a b c : string) : (a +:+ b) +:+ c = a +:+ (b +:+ c).
Proof.
  induction a as [|x a IH]; [reflexivity|].
  rewrite !append_cons. f_equal. exact IH.
Qed.

Lemma length_append (a b : string) :
  String.length (a +:+ b) = (String.length a + String.length b)%nat.
Proof.
  induction a as [|x a IH]; [reflexivity|].
  rewrite append_cons. cbn [String.length]. now rewrite IH.
Qed.

Lemma substring_all (a : string) : String.substring 0 (String.length a) a = a.
Proof. induction a as [|x a IH]; [reflexivity|]. cbn. now rewrite IH. Qed.

Lemma substring_prefix (a b : string) :
  String.substring 0 (String.length a) (a +:+ b) = a.
Proof.
  induction a as [|x a IH].
  - rewrite append_nil. destruct b; reflexivity.
  - rewrite append_cons. cbn. now rewrite IH.
Qed.

Lemma substring_suffix (a b : string) :
  String.substring (String.length a) (String.length b) (a +:+ b) = b.
Proof.
  induction a as [|x a IH].
  - rewrite append_nil. apply substring_all.
  - rewrite append_cons. cbn. exact IH.
Qed.

Lemma EndsWith_append (a b : string) : StringUtil.EndsWith (a +:+ b) b = true.
Proof.
  unfold StringUtil.EndsWith. rewrite length_append.
  destruct (Nat.ltb_spec (String.length a + String.length b) (String.length b)); [lia|].
  replace (String.length a + String.length b - String.length b)%nat
    with (String.length a) by lia.
  rewrite substring_suffix. apply String.eqb_refl.
Qed.

Lemma CIEquals_sym a : forall b, StringUtil.CIEquals a b = StringUtil.CIEquals b a.
Proof.
  induction a as [|x a IH]; intros [|y b]; cbn; try reflexivity.
  rewrite IH. f_equal. apply Ascii.eqb_sym.
Qed.

Lemma CIEquals_trans a : forall b c,
  StringUtil.CIEquals a b = true -> StringUtil.CIEquals b c = true ->
  StringUtil.CIEquals a c = true.
Proof.
  induction a as [|x a IH]; intros [|y b] [|z c]; cbn; try discriminate; try reflexivity.
  intros [Hxy Hab]%andb_prop [Hyz Hbc]%andb_prop.
  apply Ascii.eqb_eq in Hxy, Hyz. rewrite Hxy, Hyz, Ascii.eqb_refl. cbn.
  eapply IH; eassumption.
Qed.

(** A name equal to [a] up to case is not equal to a different name [b]. *)
Lemma CIEquals_distinct k a b :
  StringUtil.CIEquals a b = false -> StringUtil.CIEquals k a = true ->
  StringUtil.CIEquals k b = false.
Proof.
  intros Hab Hka. destruct (StringUtil.CIEquals k b) eqn:Hkb; [|reflexivity].
  rewrite CIEquals_sym in Hka. now rewrite (CIEquals_trans a k b Hka Hkb) in Hab.
Qed.

Lemma size_t_sub_small (a b : N) :
  (b <= a)%N -> (a < 2 ^ 64)%N -> Std.size_t_sub a b = (a - b)%N.
Proof.
  intros Hba Ha. unfold Std.size_t_sub.
  rewrite (N.mod_small b) by lia.
  replace (a + 2 ^ 64 - b)%N with ((a - b) + 1 * 2 ^ 64)%N by lia.
  rewrite N.Div0.mod_add. apply N.mod_small. lia.
Qed.

Lemma isdigit_plain c :
  Std.isdigit c = true ->
  Ascii.eqb c "(" = false /\ Ascii.eqb c ")" = false /\ Ascii.eqb c "," = false.
Proof.
  destruct c as [[] [] [] [] [] [] [] []]; vm_compute; intros; try discriminate; auto.
Qed.

Lemma digit_string_inv d :
  Std.digit_string d = true ->
  d <> "" /\ forallb Std.isdigit (list_ascii_of_string d) = true.
Proof.
  unfold Std.digit_string. intros H. apply andb_prop in H as [H1 H2]. split; [|assumption].
  intros ->. discriminate.
Qed.

(** A run of digits is copied to the current segment. *)
Lemma SplitLoop_digits whole (d : string) : forall rest result current,
  forallb Std.isdigit (list_ascii_of_string d) = true ->
  StringUtil.SplitLoop "," "(" ")" whole (d +:+ rest) result current [] =
  StringUtil.SplitLoop "," "(" ")" whole rest result (current +:+ d) [].
Proof.
  induction d as [|c d IH]; intros rest result current Hd.
  - rewrite append_nil. now rewrite append_empty_r.
  - simpl in Hd. apply andb_prop in Hd as [Hc Hd].
    destruct (isdigit_plain c Hc) as (Ho & Hc' & Hk).
    rewrite append_cons. cbn [StringUtil.SplitLoop]. rewrite Ho, Hc', Hk. cbn [bind andb].
    rewrite IH by assumption. now rewrite append_snoc.
Qed.

Lemma SplitLoop_digits_end whole (d : string) result current :
  forallb Std.isdigit (list_ascii_of_string d) = true ->
  StringUtil.SplitLoop "," "(" ")" whole d result current [] =
  Ok (result, current +:+ d, []).
Proof.
  intros Hd. pose proof (SplitLoop_digits whole d "" result current Hd) as E.
  now rewrite append_empty_r in E.
Qed.

Lemma Split_two_digit_strings d1 d2 :
  Std.digit_string d1 = true -> Std.digit_string d2 = true ->
  StringUtil.SplitWithParentheses (d1 +:+ "," +:+ d2) = Ok [d1; d2].
Proof.
  intros [_ H1]%digit_string_inv [N2 H2]%digit_string_inv.
  unfold StringUtil.SplitWithParentheses.
  rewrite SplitLoop_digits by assumption.
  rewrite append_cons, append_nil.
  cbn [StringUtil.SplitLoop Ascii.eqb Bool.eqb bind andb].
  rewrite SplitLoop_digits_end by assumption.
  cbn [bind app]. rewrite !append_nil.
  destruct (String.eqb_spec d2 ""); [contradiction | reflexivity].
Qed.

Lemma uint8_in_range (n : N) : (n < 256)%N -> In n Std.uint8_range.
Proof.
  intros Hn. unfold Std.uint8_range. apply in_map_iff. exists (N.to_nat n). split; [lia|].
  apply in_seq. lia.
Qed.

Lemma to_string_uint8 (n : N) :
  (n < 256)%N ->
  Std.digit_string (Std.to_string n) = true /\
  (String.length (Std.to_string n) <= 3)%nat /\
  Std.stoull (Std.to_string n) = Ok n.
Proof.
  intros Hn.
  assert (Hall : forallb Std.to_string_check Std.uint8_range = true)
    by (vm_compute; reflexivity).
  rewrite forallb_forall in Hall. specialize (Hall n (uint8_in_range n Hn)).
  unfold Std.to_string_check in Hall.
  apply andb_prop in Hall as [H H3]. apply andb_prop in H as [H1 H2].
  repeat split; [assumption | now apply Nat.leb_le |].
  destruct (Std.stoull (Std.to_string n)); [|discriminate].
  apply N.eqb_eq in H3. now subst.
Qed.

End StringFacts.

(** ** The type codec *)

Section CodecFacts.

Import DuckLakeTypes.

Lemma LogicalTypeId_eqb_eq a b : LogicalTypeId_eqb a b = true <-> a = b.
Proof.
  split; [|intros ->; apply N.eqb_refl].
  unfold LogicalTypeId_eqb. intros H%N.eqb_eq.
  destruct a, b; try reflexivity; discriminate H.
Qed.

(** The decimal branch of [FromString] on a token [decimal(inner)]. *)
Lemma FromString_decimal_token (inner : string) :
  (N.of_nat (String.length inner) + 9 < 2 ^ 64)%N ->
  FromString ("decimal(" +:+ inner +:+ ")") =
  bind (StringUtil.SplitWithParentheses inner) (fun decimal_members_vect =>
    match decimal_members_vect with
    | [member0; member1] =>
        bind (Std.stoull member0) (fun width =>
        bind (Std.stoull member1) (fun scale => Ok (LogicalType_DECIMAL width scale)))
    | _ => Raise MalformedDecimalSpec
    end).
Proof.
  intros Hlen. unfold FromString.
  assert (Hs : StringUtil.StartsWith ("decimal(" +:+ inner +:+ ")") "decimal(" = true)
    by (destruct inner; reflexivity).
  rewrite Hs.
  assert (He : StringUtil.EndsWith ("decimal(" +:+ inner +:+ ")") ")" = true)
    by exact (EndsWith_append ("decimal(" +:+ inner) ")").
  rewrite He. cbn [andb].
  assert (Hl : String.length ("decimal(" +:+ inner +:+ ")") = (String.length inner + 9)%nat).
  { rewrite !length_append. cbn [String.length]. lia. }
  unfold Std.substr. rewrite !Hl.
  rewrite size_t_sub_small by lia.
  destruct (N.ltb_spec (N.of_nat (String.length inner + 9)) 8); [lia|].
  replace (N.to_nat (N.of_nat (String.length inner + 9) - 9)) with (String.length inner) by lia.
  change (N.to_nat 8) with 8%nat.
  rewrite !append_cons, !append_nil. cbn [String.substring].
  rewrite substring_prefix. reflexivity.
Qed.

(** A token whose members are not exactly two is the malformed-decimal
    error, whatever the members are. *)
Lemma FromString_decimal_member_count (inner : string) (members : list string) :
  (N.of_nat (String.length inner) + 9 < 2 ^ 64)%N ->
  StringUtil.SplitWithParentheses inner = Ok members ->
  length members <> 2%nat ->
  FromString ("decimal(" +:+ inner +:+ ")") = Raise MalformedDecimalSpec.
Proof.
  intros Hlen Hsplit Hcount. rewrite FromString_decimal_token by exact Hlen.
  rewrite Hsplit. cbn [bind].
  destruct members as [|m0 [|m1 [|m2 members]]]; try reflexivity.
  now contradiction Hcount.
Qed.

Lemma ToString_decimal (w s : N) :
  (w < 256)%N -> (s < 256)%N ->
  ToString (LogicalType_DECIMAL w s) =
  Ok ("decimal(" +:+ (Std.to_string w +:+ "," +:+ Std.to_string s) +:+ ")").
Proof.
  intros Hw Hs. unfold ToString, LogicalType_DECIMAL, to_uint8.
  rewrite !N.mod_small by assumption. cbn.
  rewrite !append_assoc. reflexivity.
Qed.

Lemma decimal_roundtrip (w s : N) :
  (w < 256)%N -> (s < 256)%N ->
  exists str, ToString (LogicalType_DECIMAL w s) = Ok str /\
              FromString str = Ok (LogicalType_DECIMAL w s).
Proof.
  intros Hw Hs.
  destruct (to_string_uint8 w Hw) as (Dw & Lw & Pw).
  destruct (to_string_uint8 s Hs) as (Ds & Ls & Ps).
  eexists. split; [apply ToString_decimal; assumption|].
  rewrite FromString_decimal_token.
  - rewrite Split_two_digit_strings by assumption. cbn [bind].
    rewrite Pw, Ps. reflexivity.
  - rewrite !length_append. cbn [String.length].
    assert ((2 ^ 64 = 18446744073709551616)%N) as -> by reflexivity. lia.
Qed.

Lemma base_roundtrip :
  Forall (fun e => type_id e <> DECIMAL ->
                   exists str, ToString (LogicalType_of_id (type_id e)) = Ok str /\
                               FromString str = Ok (LogicalType_of_id (type_id e)))
         DUCKLAKE_TYPES.
Proof.
  unfold DUCKLAKE_TYPES.
  repeat (apply Forall_cons; split;
          [ cbn [type_id]; intros Hne;
            first [ now contradiction Hne
                  | eexists; split; [vm_compute; reflexivity | vm_compute; reflexivity] ]
          | ]).
  constructor.
Qed.

Lemma ToStringBaseType_varchar t : id t = VARCHAR -> ToStringBaseType t = Ok "varchar".
Proof.
  intros Hid. unfold ToStringBaseType, DUCKLAKE_TYPES.
  cbn [ToStringBaseType_loop type_id name]. rewrite Hid. reflexivity.
Qed.

(** C1.  Every plain base type of the codec's table and every decimal whose
    scale does not exceed its width encodes to a string that decodes to the
    same type.  The alias types each encode to one fixed string, ["json"]
    and ["geometry"], and these strings decode to the canonical alias
    types. *)
Theorem type_roundtrip :
  (forall t, StoredType t -> exists str, ToString t = Ok str /\ FromString str = Ok t) /\
  (forall t, IsJSONType t = true -> ToString t = Ok "json") /\
  (forall t, HasAlias t = true -> GetAlias t = "GEOMETRY" -> id t = BLOB ->
             ToString t = Ok "geometry") /\
  FromString "json" = Ok LogicalType_JSON /\
  FromString "geometry" = Ok (SetAlias "GEOMETRY" (LogicalType_of_id BLOB)).
Proof.
  split; [|split; [|split; [|split]]].
  4, 5: vm_compute; reflexivity.
  - intros t [e Hin Hne | w s Hsw Hw].
    + pose proof base_roundtrip as Hall. rewrite Forall_forall in Hall.
      apply Hall; [now apply list_elem_of_In | exact Hne].
    + apply decimal_roundtrip; lia.
  - intros t Hjson. unfold ToString. rewrite Hjson.
    unfold IsJSONType in Hjson. apply andb_prop in Hjson as [Hj _].
    apply andb_prop in Hj as [_ ->]. reflexivity.
  - intros t Halias Hgeo Hid. unfold ToString, IsJSONType.
    rewrite Halias, Hgeo, Hid. reflexivity.
Qed.

Lemma type_roundtrip_witness :
  exists str, ToString (LogicalType_DECIMAL 10 2) = Ok str /\
              FromString str = Ok (LogicalType_DECIMAL 10 2).
Proof.
  destruct type_roundtrip as [Hround _].
  apply (Hround (LogicalType_DECIMAL 10 2)).
  apply stored_decimal; [discriminate | reflexivity].
Defined.

(** C6 as stated does not hold: ["decimal(a,b)"] has two members, passes
    the member-count check, and fails inside [std::stoull] with
    [std::invalid_argument], not with the codec's malformed-decimal error. *)
Lemma decimal_parse_errors_as_stated_fails :
  ~ (FromString "decimal(10)" = Raise MalformedDecimalSpec /\
     FromString "decimal(a,b)" = Raise MalformedDecimalSpec /\
     FromString "decimal(10,2)" = Ok (LogicalType_DECIMAL 10 2)).
Proof. intros (_ & H & _). vm_compute in H. discriminate H. Qed.

(** C6, amended.  ["decimal(10)"] fails with the malformed-decimal error of
    the member-count check; ["decimal(a,b)"] fails too, with the
    [std::invalid_argument] of [std::stoull]; ["decimal(10,2)"] decodes to
    the decimal type of width 10 and scale 2. *)
Theorem decimal_parse_errors :
  FromString "decimal(10)" = Raise MalformedDecimalSpec /\
  FromString "decimal(a,b)" = Raise (Throw std_invalid_argument "stoull" []) /\
  is_Ok (FromString "decimal(a,b)") = false /\
  FromString "decimal(10,2)" = Ok (LogicalType_DECIMAL 10 2) /\
  GetWidth (LogicalType_DECIMAL 10 2) = Some 10%N /\
  GetScale (LogicalType_DECIMAL 10 2) = Some 2%N.
Proof. repeat split; vm_compute; reflexivity. Qed.

(** C9 as stated does not hold: a VARCHAR that carries the alias [JSON] and
    the collation [nocase] encodes to ["json"].  [ToString] tests the alias
    before it looks at the collation, so the collation is dropped, not
    rejected. *)
Lemma collation_dropped_under_json_alias :
  ~ (forall t : LogicalType,
       id t = VARCHAR -> GetCollation t <> "" -> is_Ok (ToString t) = false).
Proof.
  intros Hrejected.
  specialize (Hrejected (mkLogicalType VARCHAR "JSON" (StringTypeInfo "nocase"))
                        eq_refl ltac:(discriminate)).
  vm_compute in Hrejected. discriminate Hrejected.
Qed.

(** C9, amended.  For a VARCHAR the alias decides first.  Without alias, a
    non-empty collation makes [ToString] throw the collation error, an
    [InvalidInputException], and the empty collation encodes to
    ["varchar"].  With the alias [JSON] the type encodes to ["json"]
    whatever its collation; with any other alias [ToString] throws the
    [InvalidInputException] for user-defined types, with or without a
    collation.  So a VARCHAR with a non-empty collation is rejected with an
    [InvalidInputException] exactly when it is not the JSON alias type. *)
Theorem collation_rejected (t : LogicalType) (Hid : id t = VARCHAR) :
  (HasAlias t = false -> GetCollation t <> "" ->
   ToString t = Raise CollationsNotSupported) /\
  (HasAlias t = false -> GetCollation t = "" -> ToString t = Ok "varchar") /\
  (IsJSONType t = true -> ToString t = Ok "json") /\
  (HasAlias t = true -> IsJSONType t = false ->
   ToString t = Raise (Throw InvalidInputException "Unsupported user-defined type" [])) /\
  (GetCollation t <> "" ->
   (raised (ToString t) = Some InvalidInputException <-> IsJSONType t = false)).
Proof.
  unfold ToString. rewrite Hid.
  replace (LogicalTypeId_eqb VARCHAR BLOB) with false by reflexivity.
  rewrite andb_false_r.
  assert (Hjson : HasAlias t = false -> IsJSONType t = false).
  { intros Ha. unfold IsJSONType. rewrite Ha. now rewrite andb_false_r. }
  destruct (HasAlias t) eqn:Ha.
  - destruct (IsJSONType t) eqn:Hj.
    + repeat split; intros; try discriminate; reflexivity.
    + repeat split; intros; try discriminate; reflexivity.
  - rewrite (Hjson eq_refl).
    destruct (String.eqb_spec (GetCollation t) "") as [E|E]; cbn [negb].
    + repeat split; intros; try discriminate; try contradiction.
      now apply ToStringBaseType_varchar.
    + repeat split; intros; try discriminate; try contradiction; try reflexivity.
Qed.

Lemma collation_rejected_witness :
  ToString (mkLogicalType VARCHAR "" (StringTypeInfo "nocase")) =
  Raise CollationsNotSupported.
Proof.
  destruct (collation_rejected (mkLogicalType VARCHAR "" (StringTypeInfo "nocase")) eq_refl)
    as (Hcollation & _).
  apply Hcollation; [reflexivity | discriminate].
Defined.

End CodecFacts.

(** ** The delete map *)

Section DeleteMapFacts.

Import DuckLakeDeleteMap.

Lemma AddDeleteData_absent filename delete_data self :
  GetDeleteData filename self = None ->
  GetDeleteData filename (AddDeleteData filename delete_data self) = Some delete_data.
Proof.
  unfold GetDeleteData, AddDeleteData, emplace. cbn [delete_data_map]. intros ->.
  apply lookup_insert_eq.
Qed.

Lemma AddDeleteData_present filename delete_data existing self :
  GetDeleteData filename self = Some existing ->
  AddDeleteData filename delete_data self = self.
Proof.
  unfold GetDeleteData, AddDeleteData, emplace. intros ->. now destruct self.
Qed.

Lemma AddDeleteData_other filename delete_data self f :
  f <> filename ->
  GetDeleteData f (AddDeleteData filename delete_data self) = GetDeleteData f self.
Proof.
  intros Hne. unfold GetDeleteData, AddDeleteData, emplace. cbn [delete_data_map].
  destruct (delete_data_map self !! filename); [reflexivity|].
  now apply lookup_insert_ne.
Qed.

Lemma add_all_present filename vectors : forall self existing,
  GetDeleteData filename self = Some existing ->
  add_all filename vectors self = self.
Proof.
  induction vectors as [|d vectors IH]; intros self existing Hsome; [reflexivity|].
  unfold add_all. cbn [foldl]. rewrite (AddDeleteData_present _ _ _ _ Hsome).
  exact (IH self existing Hsome).
Qed.

(** C7 as stated does not hold: a second [AddDeleteData] for a file that
    already has a delete vector is an [emplace] on a present key, which
    leaves the map as it is; the row id supplied by the second call is not
    recorded. *)
Lemma merge_is_union_fails :
  ~ (forall filename delete_data self,
       row_ids filename (AddDeleteData filename delete_data self) =
       row_ids filename self ∪ list_to_set (deleted_rows delete_data)).
Proof.
  intros Hunion.
  pose (first := AddDeleteData "f" (mkDeleteData [1%N]) DuckLakeDeleteMap.empty).
  assert (Hfirst : GetDeleteData "f" first = Some (mkDeleteData [1%N]))
    by (apply AddDeleteData_absent; apply lookup_empty).
  specialize (Hunion "f" (mkDeleteData [2%N]) first).
  rewrite (AddDeleteData_present _ _ _ _ Hfirst) in Hunion.
  unfold row_ids in Hunion. rewrite Hfirst in Hunion. cbn [deleted_rows] in Hunion.
  assert (Hin : 2%N ∈ (list_to_set [1%N] : gset N)) by (rewrite Hunion; set_solver).
  set_solver.
Qed.

(** C7, amended.  [AddDeleteData] records the given delete vector for a file
    that has none; for a file that already has a delete vector it changes
    nothing, so after any sequence of calls on a file without a vector the
    file's vector is the first one supplied.  It never drops a row id that
    is already recorded, for any file, and leaves the other files' vectors
    alone; only [ClearDeletes] removes a file's vector, and only that
    file's. *)
Theorem add_delete_data_keeps_first
        (filename : string) (delete_data : DuckLakeDeleteData) (self : t) :
  (GetDeleteData filename self = None ->
   GetDeleteData filename (AddDeleteData filename delete_data self) = Some delete_data) /\
  (forall existing, GetDeleteData filename self = Some existing ->
                    AddDeleteData filename delete_data self = self) /\
  (forall later, GetDeleteData filename self = None ->
                 GetDeleteData filename (add_all filename (delete_data :: later) self) =
                 Some delete_data) /\
  (forall f, row_ids f self ⊆ row_ids f (AddDeleteData filename delete_data self)) /\
  (forall f, f <> filename ->
             GetDeleteData f (AddDeleteData filename delete_data self) =
             GetDeleteData f self) /\
  GetDeleteData filename (ClearDeletes filename self) = None /\
  (forall f, f <> filename ->
             GetDeleteData f (ClearDeletes filename self) = GetDeleteData f self).
Proof.
  split; [apply AddDeleteData_absent|].
  split; [intros existing; apply AddDeleteData_present|].
  split.
  { intros later Hnone. unfold add_all. cbn [foldl].
    pose proof (AddDeleteData_absent filename delete_data self Hnone) as Hfirst.
    pose proof (add_all_present filename later _ _ Hfirst) as Hkeep.
    unfold add_all in Hkeep. rewrite Hkeep. exact Hfirst. }
  split.
  { intros f. destruct (decide (f = filename)) as [->|Hne].
    - destruct (GetDeleteData filename self) as [existing|] eqn:Hget.
      + now rewrite (AddDeleteData_present _ _ _ _ Hget).
      + unfold row_ids at 1. rewrite Hget. set_solver.
    - unfold row_ids. now rewrite AddDeleteData_other. }
  split; [intros f Hne; now apply AddDeleteData_other|].
  split.
  - unfold GetDeleteData, ClearDeletes. cbn [delete_data_map]. apply lookup_delete_eq.
  - intros f Hne. unfold GetDeleteData, ClearDeletes. cbn [delete_data_map].
    now apply lookup_delete_ne.
Qed.

Lemma add_delete_data_keeps_first_witness :
  GetDeleteData "f"
    (AddDeleteData "f" (mkDeleteData [2%N])
       (AddDeleteData "f" (mkDeleteData [1%N]) DuckLakeDeleteMap.empty)) =
  Some (mkDeleteData [1%N]).
Proof.
  pose proof (add_delete_data_keeps_first "f" (mkDeleteData [1%N]) DuckLakeDeleteMap.empty)
    as (Hcreate & _).
  pose proof (add_delete_data_keeps_first "f" (mkDeleteData [2%N])
                (AddDeleteData "f" (mkDeleteData [1%N]) DuckLakeDeleteMap.empty))
    as (_ & Hkeep & _).
  rewrite (Hkeep (mkDeleteData [1%N])); apply Hcreate; reflexivity.
Defined.

End DeleteMapFacts.

(** ** The update operator *)

Section UpdateFacts.

Import DuckLakeUpdate.

Lemma pending_empty : pending ∅ = 0%N.
Proof. apply map_fold_empty. Qed.

Lemma pending_insert_fresh thread lstate (m : gmap nat LocalState) :
  m !! thread = None ->
  pending (<[thread := lstate]> m) = (updated_count lstate + pending m)%N.
Proof.
  intros Hnone. unfold pending.
  rewrite map_fold_insert_L; [reflexivity | intros; lia | exact Hnone].
Qed.

Lemma pending_delete thread lstate (m : gmap nat LocalState) :
  m !! thread = Some lstate ->
  pending m = (updated_count lstate + pending (delete thread m))%N.
Proof.
  intros Hsome. unfold pending.
  rewrite (map_fold_delete_L _ _ thread lstate m); [reflexivity | intros; lia | exact Hsome].
Qed.

Lemma pending_insert_live thread lstate lstate' (m : gmap nat LocalState) :
  m !! thread = Some lstate ->
  (pending (<[thread := lstate']> m) + updated_count lstate =
   updated_count lstate' + pending m)%N.
Proof.
  intros Hsome. rewrite <- (insert_delete_eq m thread lstate').
  rewrite pending_insert_fresh by apply lookup_delete_eq.
  rewrite (pending_delete thread lstate m Hsome). lia.
Qed.

Lemma rows_app a b : rows (a ++ b)%list = (rows a + rows b)%N.
Proof.
  induction a as [|c a IH]; [reflexivity|].
  cbn [app rows foldr]. fold (rows (a ++ b)%list). fold (rows a). rewrite IH. lia.
Qed.


Section WithExecutor.

Variable Execute : list Expression -> DataChunk -> Result (list (list Value)).
Variable op : Operator.

Lemma column_in_range chunk i :
  (i < ColumnCount chunk)%N -> exists v, column chunk i = Ok v.
Proof.
  intros Hi. unfold column, ColumnCount in *.
  destruct (data chunk !! N.to_nat i) eqn:E; [eauto|].
  apply lookup_ge_None in E. lia.
Qed.

Lemma sinkable_insert chunk :
  sinkable Execute op chunk = true ->
  exists sunk, make_insert_chunk Execute op chunk = Ok sunk /\ count sunk = count chunk.
Proof.
  unfold sinkable, make_insert_chunk. intros H.
  apply andb_prop in H as [H _]. apply andb_prop in H as [H _].
  apply andb_prop in H as [He Hr].
  destruct (Execute (expressions op) chunk) as [executed|]; [|discriminate].
  apply N.ltb_lt in Hr. destruct (column_in_range chunk _ Hr) as [v ->].
  cbn [bind]. eauto.
Qed.

Lemma sinkable_delete chunk :
  sinkable Execute op chunk = true ->
  exists sunk, make_delete_chunk chunk = Ok sunk /\ count sunk = count chunk.
Proof.
  unfold sinkable, make_delete_chunk, delete_columns. intros H.
  apply andb_prop in H as [H Hb]. apply andb_prop in H as [_ H3].
  apply N.leb_le in H3. apply N.ltb_lt in Hb.
  assert (H64 : (2 ^ 64 = 18446744073709551616)%N) by reflexivity.
  assert (Hsub : Std.size_t_sub (ColumnCount chunk) 3 = (ColumnCount chunk - 3)%N).
  { unfold Std.size_t_sub. rewrite (N.mod_small 3) by lia.
    replace (ColumnCount chunk + 2 ^ 64 - 3)%N
      with ((ColumnCount chunk - 3) + 1 * 2 ^ 64)%N by lia.
    rewrite N.Div0.mod_add. apply N.mod_small. lia. }
  rewrite Hsub. unfold idx_t_add. rewrite !N.mod_small by lia.
  destruct (column_in_range chunk (ColumnCount chunk - 3 + 0)) as [c0 ->]; [lia|].
  destruct (column_in_range chunk (ColumnCount chunk - 3 + 1)) as [c1 ->]; [lia|].
  destruct (column_in_range chunk (ColumnCount chunk - 3 + 2)) as [c2 ->]; [lia|].
  cbn [bind]. eauto.
Qed.

Lemma Inv_start : Inv Execute op start [].
Proof.
  split; cbn; [rewrite pending_empty; reflexivity | reflexivity | constructor | constructor].
Qed.

Lemma add_mod_l a b : ((a mod 2 ^ 64 + b) mod 2 ^ 64 = (a + b) mod 2 ^ 64)%N.
Proof. now rewrite N.Div0.add_mod_idemp_l. Qed.

Lemma run_scheduled events : forall p sunk,
  scheduled (dom (locals p)) events = true ->
  forallb (sinkable Execute op) (sunk_chunks events) = true ->
  Inv Execute op p sunk ->
  exists p', run Execute op p events = Ok p' /\ locals p' = ∅ /\
             Inv Execute op p' (sunk ++ sunk_chunks events)%list.
Proof.
  induction events as [|ev events IH]; intros p sunk Hsched Hsink HI.
  - cbn in Hsched. apply bool_decide_eq_true in Hsched. apply dom_empty_inv_L in Hsched.
    exists p. rewrite app_nil_r. auto.
  - destruct ev as [thread|thread chunk|thread copy_result delete_result];
      cbn [scheduled] in Hsched; apply andb_prop in Hsched as [Hlive Hsched];
      try (apply andb_prop in Hlive as [Hlive Hsync]);
      apply bool_decide_eq_true in Hlive.
    + apply not_elem_of_dom in Hlive.
      cbn [run step]. rewrite Hlive. cbn [bind].
      apply IH.
      * cbn [locals]. rewrite dom_insert_L. exact Hsched.
      * exact Hsink.
      * destruct HI as [Hc Ht Hcp Hd]. split; cbn [global locals]; try assumption.
        rewrite pending_insert_fresh by assumption. cbn. exact Hc.
    + apply elem_of_dom in Hlive as [lstate Hl].
      cbn [sunk_chunks forallb] in Hsink. apply andb_prop in Hsink as [Hchunk Hsink].
      destruct (sinkable_insert chunk Hchunk) as (ic & Hic & Hicn).
      destruct (sinkable_delete chunk Hchunk) as (dc & Hdc & Hdcn).
      cbn [run step]. rewrite Hl. unfold Sink. rewrite Hic, Hdc. cbn [bind fst snd].
      replace (sunk ++ sunk_chunks (EvSink thread chunk :: events))%list
        with ((sunk ++ [chunk]) ++ sunk_chunks events)%list
        by (cbn [sunk_chunks]; now rewrite <- app_assoc).
      apply IH.
      * cbn [locals]. rewrite dom_insert_L.
        rewrite (subseteq_union_1_L {[thread]} (dom (locals p)));
          [exact Hsched | apply singleton_subseteq_l, elem_of_dom; eauto].
      * exact Hsink.
      * destruct HI as [Hc Ht Hcp Hd]. split; cbn [global locals total_updated_count copy_sunk delete_sunk].
        -- rewrite rows_app. cbn [rows foldr]. 
           pose proof (pending_insert_live thread lstate
                         (mkLocal ic dc (idx_t_add (updated_count lstate) (DataChunk_size chunk)))
                         (locals p) Hl) as Hp.
           cbn [updated_count] in Hp. unfold idx_t_add in Hp.
           pose proof (N.div_mod (updated_count lstate + DataChunk_size chunk) (2 ^ 64)) as Hdm.
           specialize (Hdm ltac:(discriminate)).
           set (q := ((updated_count lstate + DataChunk_size chunk) / 2 ^ 64)%N) in *.
           set (r := ((updated_count lstate + DataChunk_size chunk) mod 2 ^ 64)%N) in *.
           rewrite <- (N.Div0.mod_add _ q).
           replace (total_updated_count (global p) + pending (<[thread := mkLocal ic dc r]> (locals p))
                    + q * 2 ^ 64)%N
             with ((total_updated_count (global p) + pending (locals p))
                   + DataChunk_size chunk)%N by lia.
           rewrite <- add_mod_l, Hc, add_mod_l. f_equal. lia.
        -- assumption.
        -- apply Forall2_app; [assumption | repeat constructor; assumption].
        -- apply Forall2_app; [assumption | repeat constructor; assumption].
    + apply elem_of_dom in Hlive as [lstate Hl].
      destruct copy_result, delete_result; try discriminate Hsync.
      cbn [run step]. rewrite Hl. unfold Combine. cbn [negb bind].
      cbn [sunk_chunks] in *.
      apply IH.
      * cbn [locals]. rewrite dom_delete_L. exact Hsched.
      * exact Hsink.
      * destruct HI as [Hc Ht Hcp Hd]. split; cbn [global locals Combine total_updated_count copy_sunk delete_sunk]; try assumption.
        -- rewrite (pending_delete thread lstate (locals p) Hl) in Hc.
           unfold idx_t_add. rewrite add_mod_l. rewrite <- Hc. f_equal. lia.
        -- unfold idx_t_add. apply N.mod_upper_bound. discriminate.
Qed.

Lemma make_insert_chunk_count chunk c :
  make_insert_chunk Execute op chunk = Ok c -> count c = count chunk.
Proof.
  unfold make_insert_chunk. destruct (Execute _ _); [|discriminate]. cbn [bind].
  destruct (column _ _); [|discriminate]. cbn [bind]. now intros [= <-].
Qed.

Lemma make_delete_chunk_count chunk c :
  make_delete_chunk chunk = Ok c -> count c = count chunk.
Proof.
  unfold make_delete_chunk. destruct (delete_columns chunk); [|discriminate].
  cbn [bind]. now intros [= <-].
Qed.

Lemma rows_Forall2 (P : DataChunk -> DataChunk -> Prop) a b :
  (forall x y, P x y -> count y = count x) -> Forall2 P a b -> rows b = rows a.
Proof.
  intros HP H. induction H as [|x y a b Hxy _ IH]; [reflexivity|].
  cbn [rows foldr]. fold (rows a). fold (rows b). unfold DataChunk_size.
  rewrite IH, (HP x y Hxy). reflexivity.
Qed.

(** The sink phase: the run completes, [GetData] returns one row holding
    the number of rows sunk, and the chunks handed to the delete operator
    and to the copy operator are, in order, the row-identifier columns and
    the rewritten columns of the chunks sunk. *)
Lemma sink_conservation (events : list Event) :
  scheduled ∅ events = true ->
  forallb (sinkable Execute op) (sunk_chunks events) = true ->
  (rows (sunk_chunks events) <= INT64_MAX)%N ->
  exists p,
    run Execute op start events = Ok p /\
    locals p = ∅ /\
    GetData (global p) =
      Ok (mkDataChunk [[VBigInt (Z.of_N (rows (sunk_chunks events)))]] 1) /\
    Forall2 (fun chunk c => make_delete_chunk chunk = Ok c)
            (sunk_chunks events) (delete_sunk (global p)) /\
    Forall2 (fun chunk c => make_insert_chunk Execute op chunk = Ok c)
            (sunk_chunks events) (copy_sunk (global p)) /\
    rows (delete_sunk (global p)) = rows (sunk_chunks events) /\
    rows (copy_sunk (global p)) = rows (sunk_chunks events).
Proof.
  intros Hsched Hsink Hmax.
  destruct (run_scheduled events start []) as (p & Hrun & Hloc & [Hc Ht Hcp Hd]).
  { cbn [start locals]. rewrite dom_empty_L. exact Hsched. }
  { exact Hsink. }
  { exact Inv_start. }
  cbn [app] in *.
  exists p. split; [exact Hrun|]. split; [exact Hloc|].
  assert (Htotal : total_updated_count (global p) = rows (sunk_chunks events)).
  { rewrite Hloc, pending_empty, N.add_0_r in Hc.
    rewrite N.mod_small in Hc by assumption.
    rewrite N.mod_small in Hc; [exact Hc|].
    unfold INT64_MAX in Hmax.
    assert ((2 ^ 63 = 9223372036854775808)%N) by reflexivity.
    assert ((2 ^ 64 = 18446744073709551616)%N) by reflexivity. lia. }
  split.
  { unfold GetData, NumericCast_int64. rewrite Htotal.
    destruct (N.ltb_spec INT64_MAX (rows (sunk_chunks events))); [lia|]. reflexivity. }
  split; [exact Hd|]. split; [exact Hcp|]. split.
  - apply (rows_Forall2 _ _ _ make_delete_chunk_count Hd).
  - apply (rows_Forall2 _ _ _ make_insert_chunk_count Hcp).
Qed.

End WithExecutor.

End UpdateFacts.

(** ** Planning an update *)

Section PlanFacts.

Import DuckLakeCatalog.

(** C10.  An update with a RETURNING clause, or with a DEFAULT value among
    its SET expressions, is rejected by [PlanUpdate] with a
    [BinderException], and the physical plan is left as it was: no copy,
    delete, insert or update operator has been made. *)
Theorem PlanUpdate_rejects
        (BindScalarFunction : string -> list Expression -> Result Expression)
        (op : LogicalUpdate) (child_plan : nat) (plan : list PhysicalOperator)
        (Hshape : return_chunk op = true \/
                  exists e, In e (op_expressions op) /\ expr_type e = VALUE_DEFAULT) :
  exists e,
    PlanUpdate BindScalarFunction op child_plan plan = (plan, Raise e) /\
    exn_class e = BinderException /\
    (return_chunk op = true -> e = ReturningNotSupported) /\
    (return_chunk op = false -> e = SetDefaultNotSupported).
Proof.
  unfold PlanUpdate. destruct (return_chunk op) eqn:Hret.
  - exists ReturningNotSupported. repeat split; try reflexivity. discriminate.
  - destruct Hshape as [Hr | (e & Hin & He)]; [discriminate|].
    assert (Hex : existsb is_VALUE_DEFAULT (op_expressions op) = true).
    { apply existsb_exists. exists e. split; [exact Hin|].
      unfold is_VALUE_DEFAULT. now rewrite He. }
    rewrite Hex. exists SetDefaultNotSupported. repeat split; try reflexivity. discriminate.
Qed.

Lemma PlanUpdate_rejects_witness :
  exists e,
    PlanUpdate (fun name children => Ok (BoundFunctionExpression name children))
               (mkLogicalUpdate true [] [] (mkTableEntry "t" None "")) 0 [] = ([], Raise e) /\
    exn_class e = BinderException.
Proof.
  destruct (PlanUpdate_rejects
              (fun name children => Ok (BoundFunctionExpression name children))
              (mkLogicalUpdate true [] [] (mkTableEntry "t" None "")) 0 [])
    as (e & Hplan & Hclass & _).
  - left. reflexivity.
  - exists e. split; [exact Hplan | exact Hclass].
Defined.

(** Once both checks pass the three write operators are added to the plan. *)
Lemma PlanUpdate_accepts_builds BSF op child_plan plan :
  return_chunk op = false ->
  existsb is_VALUE_DEFAULT (op_expressions op) = false ->
  exists rest r, PlanUpdate BSF op child_plan plan =
    ((plan ++ PhysicalCopyOp WRITE_ROW_ID
            :: DuckLakeDeleteOp child_plan [0;1;2]%N (encryption_key (table op)) false
            :: DuckLakeInsertOp (encryption_key (table op)) :: rest)%list, r).
Proof.
  intros Hr Hd. unfold PlanUpdate. rewrite Hr, Hd.
  unfold Planner.bindM, Planner.Make, Planner.lift.
  destruct (reorder_expressions _ _ _ _ _) as [es|e].
  - destruct (match partition_data (table op) with Some _ => _ | None => _ end) as [es'|e].
    + eexists [_], _. rewrite <- !app_assoc. reflexivity.
    + exists [], (Raise e). rewrite <- !app_assoc. reflexivity.
  - exists [], (Raise e). rewrite <- !app_assoc. reflexivity.
Qed.

End PlanFacts.

(** ** File cleanup *)

Section CleanupFacts.

Import Cleanup.

Context `{CleanupServices}.

(** What the named-parameter loop leaves in the flags when it completes. *)
Lemma named_parameters_loop_flags type np : forall flags flags',
  named_parameters_loop type np flags = Ok flags' ->
  flag_dry_run flags' = flag_dry_run flags || supplied "dry_run" np /\
  cleanup_all flags' = cleanup_all flags || supplied "cleanup_all" np /\
  has_timestamp flags' = has_timestamp flags || supplied "older_than" np.
Proof.
  induction np as [|entry np IH]; intros flags flags' Hloop.
  - cbn in Hloop. injection Hloop as <-. cbn. now rewrite !orb_false_r.
  - cbn [named_parameters_loop] in Hloop. unfold supplied. cbn [existsb]. fold (supplied "dry_run" np).
    fold (supplied "cleanup_all" np). fold (supplied "older_than" np).
    destruct (StringUtil.CIEquals (fst entry) "dry_run") eqn:Hd.
    { rewrite (CIEquals_distinct _ "dry_run" "cleanup_all" eq_refl Hd).
      rewrite (CIEquals_distinct _ "dry_run" "older_than" eq_refl Hd).
      apply IH in Hloop as (-> & -> & ->). cbn. now rewrite orb_true_r. }
    destruct (StringUtil.CIEquals (fst entry) "cleanup_all") eqn:Hc.
    { rewrite (CIEquals_distinct _ "cleanup_all" "older_than" eq_refl Hc).
      apply IH in Hloop as (-> & -> & ->). cbn. now rewrite orb_true_r. }
    destruct (StringUtil.CIEquals (fst entry) "older_than") eqn:Ho; [|discriminate].
    destruct (GetValue_timestamp_tz (snd entry)); [|discriminate]. cbn [bind] in Hloop.
    apply IH in Hloop as (-> & -> & ->). cbn. now rewrite orb_true_r.
Qed.


Lemma named_parameters_loop_revalue f type np : forall flags,
  named_parameters_loop type (map (revalue f) np) flags = named_parameters_loop type np flags.
Proof.
  induction np as [|entry np IH]; intros flags; [reflexivity|].
  cbn [map named_parameters_loop].
  destruct (StringUtil.CIEquals (fst entry) "dry_run") eqn:Hd.
  { assert (E : revalue f entry = (fst entry, f (snd entry)))
      by (unfold revalue; now rewrite Hd).
    rewrite E. cbn [fst snd]. rewrite Hd. apply IH. }
  destruct (StringUtil.CIEquals (fst entry) "cleanup_all") eqn:Hc.
  { assert (E : revalue f entry = (fst entry, f (snd entry)))
      by (unfold revalue; now rewrite Hd, Hc).
    rewrite E. cbn [fst snd]. rewrite Hd, Hc. apply IH. }
  assert (E : revalue f entry = entry) by (unfold revalue; now rewrite Hd, Hc).
  rewrite E, Hd, Hc.
  destruct (StringUtil.CIEquals (fst entry) "older_than"); [|reflexivity].
  destruct (GetValue_timestamp_tz (snd entry)); cbn [bind]; [apply IH | reflexivity].
Qed.



(** C8.  [CleanupBind] reads the presence of [dry_run] and [cleanup_all],
    never their values: replacing the supplied values by any others gives
    the same result, the bound [dry_run] flag is set exactly when the
    parameter is supplied, and [dry_run := false, cleanup_all := false]
    binds as [dry_run := true, cleanup_all := true] does, a dry run with no
    cutoff. *)
Theorem named_parameter_presence (type : CleanupType) (older_than_default : string)
        (named_parameters : list (string * Value)) (w : World) (f : Value -> Value) :
  CleanupBind (map (revalue f) named_parameters) type older_than_default w =
  CleanupBind named_parameters type older_than_default w /\
  (forall r, CleanupBind named_parameters type older_than_default w = Ok r ->
             dry_run (bind_data r) = supplied "dry_run" named_parameters) /\
  CleanupBind [("dry_run", VBoolean false); ("cleanup_all", VBoolean false)]
              type older_than_default w =
  CleanupBind [("dry_run", VBoolean true); ("cleanup_all", VBoolean true)]
              type older_than_default w /\
  (exists r, CleanupBind [("dry_run", VBoolean false); ("cleanup_all", VBoolean false)]
                         type older_than_default w = Ok r /\
             dry_run (bind_data r) = true /\ timestamp_filter (bind_data r) = "").
Proof.
  split; [|split; [|split]].
  - unfold CleanupBind. now rewrite named_parameters_loop_revalue.
  - intros r. unfold CleanupBind.
    destruct (named_parameters_loop type named_parameters initial_flags) as [flags|] eqn:Hloop;
      [|discriminate].
    cbn [bind].
    destruct (named_parameters_loop_flags type named_parameters _ _ Hloop) as (Hd & _ & _).
    cbn [initial_flags flag_dry_run orb] in Hd.
    destruct (_ || _); [discriminate|].
    destruct (if has_timestamp flags then _ else _) as [tf di].
    intros [= <-]. exact Hd.
  - reflexivity.
  - eexists. split; [reflexivity|]. split; reflexivity.
Qed.

Lemma output_loop_spec files room : forall offset output,
  output_loop files room offset output =
  ((offset + length (take room (drop offset files)))%nat,
   (output ++ paths (take room (drop offset files)))%list).
Proof.
  induction room as [|room IH]; intros offset output.
  - cbn. now rewrite Nat.add_0_r, app_nil_r.
  - cbn [output_loop]. destruct (files !! offset) as [file|] eqn:E.
    + rewrite IH. rewrite (drop_S files file offset E). cbn [take length paths map].
      rewrite <- app_assoc. cbn [app]. f_equal. lia.
    + apply lookup_ge_None in E. rewrite drop_ge by lia. cbn.
      now rewrite Nat.add_0_r, app_nil_r.
Qed.

(** One call of [DuckLakeCleanupExecute]. *)
Lemma DuckLakeCleanupExecute_spec data state w :
  DuckLakeCleanupExecute data state w =
  if (length (files data) <=? offset state)%nat then (w, state, mkDataChunk [[]] 0)
  else
    let batch := take STANDARD_VECTOR_SIZE (drop (offset state) (files data)) in
    let fire := negb (executed state) && negb (dry_run data) in
    (if fire then cleanup_effect data w else w,
     mkCleanupData (offset state + length batch) (if fire then true else executed state),
     mkDataChunk [paths batch] (N.of_nat (length batch))).
Proof.
  unfold DuckLakeCleanupExecute.
  destruct (length (files data) <=? offset state)%nat; [reflexivity|].
  rewrite output_loop_spec. cbn [app].
  destruct (negb (executed state) && negb (dry_run data)); cbn zeta.
  - unfold paths. rewrite !length_map. reflexivity.
  - unfold paths. rewrite !length_map. reflexivity.
Qed.


Lemma take_drop_length {A} (k : nat) (l : list A) :
  (take k l ++ drop (length (take k l)) l)%list = l.
Proof.
  rewrite length_take. destruct (Nat.min_spec k (length l)) as [[Hlt ->]|[Hge ->]].
  - apply take_drop.
  - rewrite take_ge, drop_ge by lia. apply app_nil_r.
Qed.

Lemma paths_app a b : paths (a ++ b)%list = (paths a ++ paths b)%list.
Proof. apply map_app. Qed.

(** Pulling until the function is exhausted. *)
Lemma pull_spec calls : forall bd state w,
  (length (files bd) - offset state < calls)%nat ->
  exists state' outputs,
    pull calls bd state w =
      Some (if (offset state <? length (files bd))%nat
               && negb (executed state) && negb (dry_run bd)
            then cleanup_effect bd w else w,
            state', outputs) /\
    output_rows outputs = paths (drop (offset state) (files bd)).
Proof.
  induction calls as [|calls IH]; intros bd state w Hcalls; [lia|].
  cbn [pull]. rewrite DuckLakeCleanupExecute_spec.
  destruct (Nat.leb_spec (length (files bd)) (offset state)) as [Hge|Hlt].
  - destruct (Nat.ltb_spec (offset state) (length (files bd))); [lia|].
    cbn [andb count N.eqb].
    exists state, []. split; [reflexivity|]. rewrite drop_ge by lia. reflexivity.
  - destruct (Nat.ltb_spec (offset state) (length (files bd))); [|lia]. cbn [andb].
    set (batch := take STANDARD_VECTOR_SIZE (drop (offset state) (files bd))).
    assert (Hbatch : (1 <= length batch)%nat).
    { unfold batch. rewrite length_take, length_drop. unfold STANDARD_VECTOR_SIZE. lia. }
    cbn zeta. cbn [count].
    destruct (N.eqb_spec (N.of_nat (length batch)) 0); [lia|].
    destruct (negb (executed state) && negb (dry_run bd)) eqn:Hfire.
    all: match goal with
         | |- context [pull _ _ ?st ?w'] =>
             destruct (IH bd st w') as (state' & outputs & Hpull & Hrows);
             [cbn [offset]; lia|]
         end.
    all: rewrite Hpull; cbn [offset executed] in *.
    all: exists state', (mkDataChunk [paths batch] (N.of_nat (length batch)) :: outputs).
    all: split;
      [ f_equal; f_equal; f_equal;
        rewrite <- ?andb_assoc; cbn [negb andb]; rewrite ?Hfire, ?andb_false_r; reflexivity
      | ].
    all: unfold output_rows in *; cbn [map concat data]; rewrite Hrows.
    all: rewrite app_nil_r, <- paths_app; f_equal.
    all: rewrite <- drop_drop; apply take_drop_length.
Qed.

(** C4.  In dry-run mode a call of [DuckLakeCleanupExecute] leaves the file
    system and the catalog as they are, for old-file and for orphan cleanup
    alike, and pulling the function to exhaustion returns every candidate
    path, one per row, in order. *)
Theorem dry_run_no_op (bd : CleanupBindData) (w : World) (Hdry : dry_run bd = true) :
  (forall state, (DuckLakeCleanupExecute bd state w).1.1 = w) /\
  (forall calls, (length (files bd) < calls)%nat ->
     exists state' outputs,
       pull calls bd DuckLakeCleanupInit w = Some (w, state', outputs) /\
       output_rows outputs = paths (files bd)).
Proof.
  split.
  - intros state. rewrite DuckLakeCleanupExecute_spec, Hdry.
    destruct (length (files bd) <=? offset state)%nat; [reflexivity|].
    cbn [negb]. rewrite andb_false_r. reflexivity.
  - intros calls Hcalls.
    destruct (pull_spec calls bd DuckLakeCleanupInit w) as (state' & outputs & Hpull & Hrows).
    { cbn [DuckLakeCleanupInit offset]. lia. }
    rewrite Hdry in Hpull. cbn [negb] in Hpull. rewrite andb_false_r in Hpull.
    exists state', outputs. split; [exact Hpull|].
    rewrite Hrows. cbn [DuckLakeCleanupInit offset]. now rewrite drop_0.
Qed.

(** C5.  A call of [DuckLakeCleanupExecute] for orphan cleanup leaves the
    catalog as it is; whenever a call changes the catalog the cleanup type
    is old-files, the run is not a dry run and the removal block has not run
    before.  Orphan cleanup that is not a dry run, pulled to exhaustion,
    removes the candidate files from the file system, keeps the catalog and
    returns the candidate paths; the first effective call of old-file
    cleanup removes the files and the catalog rows. *)
Theorem orphan_cleanup_keeps_catalog
        (bd : CleanupBindData) (state : DuckLakeCleanupData) (w : World) :
  (type bd = ORPHANED_FILES ->
   metadata (DuckLakeCleanupExecute bd state w).1.1 = metadata w) /\
  (metadata (DuckLakeCleanupExecute bd state w).1.1 <> metadata w ->
   type bd = OLD_FILES /\ dry_run bd = false /\ executed state = false) /\
  (type bd = ORPHANED_FILES -> dry_run bd = false ->
   forall calls, (length (files bd) < calls)%nat ->
     exists w' state' outputs,
       pull calls bd DuckLakeCleanupInit w = Some (w', state', outputs) /\
       metadata w' = metadata w /\
       fs w' = remove_files (files bd) (fs w) /\
       output_rows outputs = paths (files bd)) /\
  (type bd = OLD_FILES -> dry_run bd = false -> executed state = false ->
   (offset state < length (files bd))%nat ->
   (DuckLakeCleanupExecute bd state w).1.1 =
   mkWorld (remove_files (files bd) (fs w))
           (RemoveFilesScheduledForCleanup (files bd) (metadata w))).
Proof.
  rewrite DuckLakeCleanupExecute_spec.
  split; [|split; [|split]].
  - intros Htype. destruct (length (files bd) <=? offset state)%nat; [reflexivity|].
    destruct (negb (executed state) && negb (dry_run bd)); [|reflexivity].
    cbn [fst]. unfold cleanup_effect. now rewrite Htype.
  - destruct (length (files bd) <=? offset state)%nat; [intros Hne; now contradiction Hne|].
    destruct (executed state), (dry_run bd); cbn [negb andb fst];
      try (intros Hne; now contradiction Hne).
    unfold cleanup_effect. destruct (type bd); [auto|].
    intros Hne; now contradiction Hne.
  - intros Htype Hreal calls Hcalls.
    destruct (pull_spec calls bd DuckLakeCleanupInit w) as (state' & outputs & Hpull & Hrows).
    { cbn [DuckLakeCleanupInit offset]. lia. }
    cbn [DuckLakeCleanupInit offset executed] in Hpull, Hrows.
    rewrite drop_0 in Hrows. rewrite Hreal in Hpull. cbn [negb] in Hpull.
    rewrite !andb_true_r in Hpull.
    eexists _, state', outputs. split; [exact Hpull|].
    destruct (Nat.ltb_spec 0 (length (files bd))) as [Hpos|Hzero].
    + unfold cleanup_effect. rewrite Htype. auto.
    + assert (Hnil : files bd = []) by (destruct (files bd); [reflexivity | cbn in Hzero; lia]).
      repeat split; [now rewrite Hnil | exact Hrows].
  - intros Htype Hreal Hexec Hoff.
    destruct (Nat.leb_spec (length (files bd)) (offset state)); [lia|].
    rewrite Hexec, Hreal. cbn [negb andb fst]. unfold cleanup_effect. now rewrite Htype.
Qed.

End CleanupFacts.

(** ** The cleanup properties on the example services *)

Section CleanupExamples.

Import Cleanup.



Lemma named_parameter_presence_witness :
  dry_run (bind_data
    (mkBindResult (mkBindData Examples.candidates true false ORPHANED_FILES "")
                  [LogicalType_of_id VARCHAR] ["path"])) = true.
Proof.
  destruct (@named_parameter_presence Examples.services ORPHANED_FILES ""
              [("DRY_RUN", VBoolean false); ("cleanup_all", VBoolean false)]
              Examples.world (fun v => v)) as (_ & Hflag & _).
  apply (Hflag (mkBindResult (mkBindData Examples.candidates true false ORPHANED_FILES "")
                             [LogicalType_of_id VARCHAR] ["path"])).
  reflexivity.
Defined.

Lemma dry_run_no_op_witness :
  exists state' outputs,
    @pull Examples.services 3
          (mkBindData Examples.candidates true false OLD_FILES "") DuckLakeCleanupInit
          Examples.world =
    Some (Examples.world, state', outputs) /\
    output_rows outputs = [VVarchar "data/a.parquet"; VVarchar "data/b.parquet"].
Proof.
  apply (@dry_run_no_op Examples.services
           (mkBindData Examples.candidates true false OLD_FILES "") Examples.world).
  - reflexivity.
  - cbn. lia.
Defined.

Lemma orphan_cleanup_keeps_catalog_witness :
  @metadata Examples.services
    (@DuckLakeCleanupExecute Examples.services
       (mkBindData Examples.candidates false false ORPHANED_FILES "") DuckLakeCleanupInit
       Examples.world).1.1 =
  Examples.candidates.
Proof.
  apply (@orphan_cleanup_keeps_catalog Examples.services
           (mkBindData Examples.candidates false false ORPHANED_FILES "")
           DuckLakeCleanupInit Examples.world).
  reflexivity.
Defined.

End CleanupExamples.

(** ** More on the type codec *)

Section CodecExtras.

Import DuckLakeTypes.

Lemma CIEquals_congr a b n :
  StringUtil.CIEquals a b = true -> StringUtil.CIEquals a n = StringUtil.CIEquals b n.
Proof.
  intros Hab. destruct (StringUtil.CIEquals b n) eqn:Hbn.
  - exact (CIEquals_trans a b n Hab Hbn).
  - destruct (StringUtil.CIEquals a n) eqn:Han; [|reflexivity].
    rewrite CIEquals_sym in Hab. now rewrite (CIEquals_trans b a n Hab Han) in Hbn.
Qed.

Lemma ParseBaseType_loop_congr a b types :
  StringUtil.CIEquals a b = true ->
  ParseBaseType_loop a types = ParseBaseType_loop b types.
Proof.
  intros Hab. induction types as [|e types IH]; [reflexivity|].
  cbn [ParseBaseType_loop]. rewrite (CIEquals_congr a b _ Hab), IH. reflexivity.
Qed.

Lemma ParseBaseType_congr a b t :
  StringUtil.CIEquals a b = true -> ParseBaseType a = Ok t -> ParseBaseType b = Ok t.
Proof.
  intros Hab. unfold ParseBaseType.
  rewrite (ParseBaseType_loop_congr a b _ Hab).
  destruct (ParseBaseType_loop b DUCKLAKE_TYPES); [auto|].
  rewrite !(CIEquals_congr a b _ Hab).
  destruct (StringUtil.CIEquals b "json"); [auto|].
  destruct (StringUtil.CIEquals b "geometry"); [auto|discriminate].
Qed.

(** X1.  Two tokens that differ only in the case of their letters, neither
    of them of the form [decimal(...], decode alike: [FromString] returns a
    type for one exactly when it returns that type for the other. *)
Theorem base_names_ignore_case (a b : string) (t : LogicalType)
        (Hab : StringUtil.CIEquals a b = true)
        (Ha : StringUtil.StartsWith a "decimal(" = false)
        (Hb : StringUtil.StartsWith b "decimal(" = false) :
  FromString a = Ok t <-> FromString b = Ok t.
Proof.
  unfold FromString. rewrite Ha, Hb. cbn [andb].
  split; apply ParseBaseType_congr; [exact Hab | now rewrite CIEquals_sym].
Qed.

Lemma base_names_ignore_case_witness :
  FromString "TimeStampTZ" = Ok (LogicalType_of_id TIMESTAMP_TZ).
Proof.
  apply (base_names_ignore_case "timestamptz" "TimeStampTZ"); reflexivity.
Defined.

(** X2.  The decimal pattern is matched with the case it is written in: a
    token [DECIMAL(...)] in upper case is not read as a decimal, whatever
    stands between the parentheses, and is rejected as an unsupported
    type. *)
Theorem upper_case_decimal_rejected (inner : string) :
  FromString ("DECIMAL(" +:+ inner +:+ ")") =
  Raise (UnsupportedTypeToken ("DECIMAL(" +:+ inner +:+ ")")).
Proof. destruct inner; reflexivity. Qed.

Lemma to_uint8_lt n : (to_uint8 n < 256)%N.
Proof. unfold to_uint8. apply N.mod_upper_bound. discriminate. Qed.

Lemma LogicalType_DECIMAL_narrow w s :
  LogicalType_DECIMAL w s = LogicalType_DECIMAL (to_uint8 w) (to_uint8 s).
Proof.
  unfold LogicalType_DECIMAL, to_uint8. now rewrite !N.Div0.mod_mod.
Qed.

Lemma ParseBaseType_reencodes s t :
  StringUtil.CIEquals s "decimal" = false ->
  ParseBaseType s = Ok t ->
  exists str, ToString t = Ok str /\ FromString str = Ok t.
Proof.
  intros Hdec. unfold ParseBaseType, DUCKLAKE_TYPES. cbn [ParseBaseType_loop name type_id].
  rewrite Hdec.
  repeat match goal with
         | |- context [if StringUtil.CIEquals s ?n then _ else _] =>
             destruct (StringUtil.CIEquals s n)
         end;
    intros [= <-];
    (eexists; split; [vm_compute; reflexivity | vm_compute; reflexivity]).
Qed.

(** X3.  Whatever [FromString] decodes, from any token other than the bare
    word [decimal], [ToString] encodes, and the encoding decodes to the same
    type again: decoding lands on types the codec can store. *)
Theorem decoded_type_reencodes (s : string) (t : LogicalType)
        (Hbare : StringUtil.CIEquals s "decimal" = false)
        (Hdecoded : FromString s = Ok t) :
  exists str, ToString t = Ok str /\ FromString str = Ok t.
Proof.
  revert Hdecoded. unfold FromString.
  destruct (StringUtil.StartsWith s "decimal(" && StringUtil.EndsWith s ")").
  - destruct (Std.substr _ _ _) as [inner|]; [|discriminate]. cbn [bind].
    destruct (StringUtil.SplitWithParentheses inner) as [members|]; [|discriminate].
    cbn [bind]. destruct members as [|m0 [|m1 [|m2 members]]]; try discriminate.
    destruct (Std.stoull m0) as [w|]; [|discriminate]. cbn [bind].
    destruct (Std.stoull m1) as [sc|]; [|discriminate]. cbn [bind].
    intros [= <-]. rewrite LogicalType_DECIMAL_narrow.
    apply decimal_roundtrip; apply to_uint8_lt.
  - now apply ParseBaseType_reencodes.
Qed.

Lemma decoded_type_reencodes_witness :
  exists str, ToString (LogicalType_of_id TIMESTAMP) = Ok str /\
              FromString str = Ok (LogicalType_of_id TIMESTAMP).
Proof.
  apply (decoded_type_reencodes "Timestamp_US"); reflexivity.
Defined.

(** X4.  A struct, list or map type without alias encodes to its fixed
    token, and [FromString] rejects that token as an unsupported type: the
    nested types are written by the codec and never read back by it. *)
Theorem nested_types_do_not_decode (t : LogicalType)
        (Halias : HasAlias t = false)
        (Hnested : id t = STRUCT \/ id t = LIST \/ id t = MAP) :
  exists str, ToString t = Ok str /\
              FromString str = Raise (UnsupportedTypeToken str).
Proof.
  unfold ToString. rewrite Halias.
  destruct Hnested as [-> | [-> | ->]]; eexists; (split; [reflexivity | vm_compute; reflexivity]).
Qed.

Lemma nested_types_do_not_decode_witness :
  exists str, ToString (LogicalType_of_id LIST) = Ok str /\
              FromString str = Raise (UnsupportedTypeToken str).
Proof.
  apply (nested_types_do_not_decode (LogicalType_of_id LIST)); [reflexivity | auto].
Defined.

Lemma SplitLoop_members whole (members : list string) : forall result,
  members <> [] ->
  forallb Std.digit_string members = true ->
  StringUtil.SplitLoop "," "(" ")" whole (join_commas members) result "" [] =
  Ok ((result ++ removelast members)%list, List.last members "", []).
Proof.
  induction members as [|d members IH]; intros result Hne Hall; [contradiction|].
  cbn [forallb] in Hall. apply andb_prop in Hall as [Hd Hall].
  destruct (digit_string_inv d Hd) as [_ Hdigits].
  destruct members as [|d' members].
  - cbn [join_commas removelast List.last]. rewrite SplitLoop_digits_end by assumption.
    now rewrite append_nil, app_nil_r.
  - change (join_commas (d :: d' :: members))
      with (d +:+ "," +:+ join_commas (d' :: members)).
    rewrite SplitLoop_digits by assumption. rewrite append_cons, append_nil.
    cbn [StringUtil.SplitLoop Ascii.eqb Bool.eqb bind andb].
    rewrite IH by (try discriminate; assumption).
    change (removelast (d :: d' :: members)) with (d :: removelast (d' :: members)).
    change (List.last (d :: d' :: members) "") with (List.last (d' :: members) "").
    now rewrite <- app_assoc.
Qed.

Lemma last_digit_string members :
  members <> [] -> forallb Std.digit_string members = true ->
  Std.digit_string (List.last members "") = true.
Proof.
  induction members as [|d [|d' members] IH]; intros Hne Hall; [contradiction| |].
  - cbn in *. now apply andb_prop in Hall as [? _].
  - cbn [forallb] in Hall. apply andb_prop in Hall as [_ Hall].
    apply IH; [discriminate | exact Hall].
Qed.

Lemma Split_members members :
  forallb Std.digit_string members = true ->
  StringUtil.SplitWithParentheses (join_commas members) = Ok members.
Proof.
  intros Hall. destruct members as [|d members]; [reflexivity|].
  unfold StringUtil.SplitWithParentheses.
  rewrite SplitLoop_members by (try discriminate; assumption). cbn [bind app].
  pose proof (last_digit_string (d :: members) ltac:(discriminate) Hall) as Hlast.
  destruct (digit_string_inv _ Hlast) as [Hne _].
  destruct (String.eqb_spec (List.last (d :: members) "") ""); [contradiction|].
  f_equal. symmetry. apply app_removelast_last. discriminate.
Qed.

(** X5.  A decimal token whose members are digit strings, but not exactly
    two of them (none, one, three or more), fails with the malformed-decimal
    error. *)
Theorem decimal_member_count (members : list string)
        (Hdigits : forallb Std.digit_string members = true)
        (Hsize : (N.of_nat (String.length (join_commas members)) + 9 < 2 ^ 64)%N)
        (Hcount : length members <> 2%nat) :
  FromString ("decimal(" +:+ join_commas members +:+ ")") = Raise MalformedDecimalSpec.
Proof.
  apply (FromString_decimal_member_count _ members); auto using Split_members.
Qed.

Lemma decimal_member_count_witness :
  FromString "decimal(1,2,3)" = Raise MalformedDecimalSpec.
Proof.
  apply (decimal_member_count ["1"; "2"; "3"]); [reflexivity | reflexivity | discriminate].
Defined.

Lemma isdigit_not_sign c :
  Std.isdigit c = true ->
  Std.isspace c = false /\ c <> "-"%char /\ c <> "+"%char.
Proof.
  destruct c as [[] [] [] [] [] [] [] []]; vm_compute; intros; try discriminate;
    repeat split; discriminate.
Qed.

Lemma digits_seen s : forall acc, snd (Std.digits s acc true) = true.
Proof.
  induction s as [|c s IH]; intros acc; [reflexivity|].
  cbn [Std.digits]. destruct (Std.isdigit c); [apply IH | reflexivity].
Qed.

Lemma stoull_digit_string d :
  Std.digit_string d = true ->
  Std.stoull d =
  if (Std.ULLONG_MAX <? decimal_value d)%N
  then Raise (Throw std_out_of_range "stoull" [])
  else Ok (decimal_value d).
Proof.
  intros Hd. destruct (digit_string_inv d Hd) as [Hne Hall].
  destruct d as [|c rest]; [contradiction|].
  cbn [list_ascii_of_string forallb] in Hall. apply andb_prop in Hall as [Hc _].
  destruct (isdigit_not_sign c Hc) as (Hsp & Hm & Hp).
  unfold Std.stoull, decimal_value. cbn [Std.skip_space]. rewrite Hsp.
  assert (Hsign : (match String c rest with
                   | String "-" r => (true, r)
                   | String "+" r => (false, r)
                   | _ => (false, String c rest)
                   end) = (false, String c rest)).
  { destruct c as [[] [] [] [] [] [] [] []]; try reflexivity; congruence. }
  rewrite Hsign.
  cbn [Std.digits]. rewrite Hc.
  pose proof (digits_seen rest (0 * 10 + (N_of_ascii c - 48))%N) as Hseen.
  destruct (Std.digits rest _ true) as [value seen]. cbn [snd fst] in *.
  rewrite Hseen. cbn [negb]. reflexivity.
Qed.

(** X6.  A decimal token with two digit-string members that fit an unsigned
    64-bit integer decodes to the decimal type whose width and scale are the
    members' values narrowed to [uint8_t]: a value of 256 or more is reduced
    modulo 256, not rejected. *)
Theorem decimal_members_narrowed (d1 d2 : string)
        (H1 : Std.digit_string d1 = true) (H2 : Std.digit_string d2 = true)
        (Hsize : (N.of_nat (String.length d1 + String.length d2) + 10 < 2 ^ 64)%N)
        (Hw : (decimal_value d1 <= Std.ULLONG_MAX)%N)
        (Hs : (decimal_value d2 <= Std.ULLONG_MAX)%N) :
  FromString ("decimal(" +:+ (d1 +:+ "," +:+ d2) +:+ ")") =
  Ok (mkLogicalType DECIMAL ""
        (DecimalTypeInfo (decimal_value d1 mod 256) (decimal_value d2 mod 256))).
Proof.
  rewrite FromString_decimal_token.
  - rewrite Split_two_digit_strings by assumption. cbn [bind].
    rewrite !stoull_digit_string by assumption.
    destruct (N.ltb_spec Std.ULLONG_MAX (decimal_value d1)); [lia|].
    destruct (N.ltb_spec Std.ULLONG_MAX (decimal_value d2)); [lia|].
    reflexivity.
  - rewrite !length_append. cbn [String.length]. lia.
Qed.

Lemma decimal_members_narrowed_witness :
  FromString "decimal(300,2)" = Ok (mkLogicalType DECIMAL "" (DecimalTypeInfo 44 2)).
Proof.
  apply (decimal_members_narrowed "300" "2"); try reflexivity; vm_compute; discriminate.
Defined.

End CodecExtras.

(** ** More on the delete map *)

Section DeleteMapExtras.

Import DuckLakeDeleteMap.

Lemma add_infos_lookup entries : forall self filename,
  file_map (add_infos entries self) !! filename =
  match file_map self !! filename with
  | Some e => Some e
  | None => first_for filename entries
  end.
Proof.
  induction entries as [|e entries IH]; intros self filename.
  - cbn. now destruct (file_map self !! filename).
  - unfold add_infos. cbn [foldl]. fold (add_infos entries (AddExtendedFileInfo e self)).
    rewrite IH. unfold AddExtendedFileInfo, emplace, first_for. cbn [file_map List.find].
    destruct (String.eqb_spec (file_path e) filename) as [<-|Hne].
    + destruct (file_map self !! file_path e) eqn:E; [now rewrite E|].
      now rewrite lookup_insert_eq.
    + destruct (file_map self !! file_path e) eqn:E; [reflexivity|].
      now rewrite lookup_insert_ne.
Qed.

(** X7.  After any sequence of [AddExtendedFileInfo] calls on an empty map,
    [GetExtendedFileInfo] returns, for a path, the first entry that was
    added with that path (a later entry for the same path does not replace
    it), and throws the internal error for a path that was never added. *)
Theorem file_info_lookup (entries : list DuckLakeFileListExtendedEntry) (filename : string) :
  GetExtendedFileInfo filename (add_infos entries DuckLakeDeleteMap.empty) =
  match first_for filename entries with
  | Some file_entry => Ok file_entry
  | None => Raise MissingFileInfo
  end.
Proof.
  unfold GetExtendedFileInfo. rewrite add_infos_lookup.
  cbn [DuckLakeDeleteMap.empty file_map]. rewrite lookup_empty.
  now destruct (first_for filename entries).
Qed.

(** X8.  [ClearDeletes] followed by [AddDeleteData] installs the given
    delete vector for the file whatever was recorded before, and leaves the
    vectors of all other files as they were; clearing a file that has no
    vector changes nothing, and clearing twice is clearing once. *)
Theorem clear_then_add_replaces (filename : string) (delete_data : DuckLakeDeleteData)
        (self : t) :
  GetDeleteData filename (AddDeleteData filename delete_data (ClearDeletes filename self)) =
    Some delete_data /\
  (forall f, f <> filename ->
     GetDeleteData f (AddDeleteData filename delete_data (ClearDeletes filename self)) =
     GetDeleteData f self) /\
  (GetDeleteData filename self = None -> ClearDeletes filename self = self) /\
  ClearDeletes filename (ClearDeletes filename self) = ClearDeletes filename self.
Proof.
  split; [|split; [|split]].
  - apply AddDeleteData_absent. unfold GetDeleteData, ClearDeletes. cbn [delete_data_map].
    apply lookup_delete_eq.
  - intros f Hne. rewrite AddDeleteData_other by exact Hne.
    unfold GetDeleteData, ClearDeletes. cbn [delete_data_map]. now apply lookup_delete_ne.
  - unfold GetDeleteData, ClearDeletes. intros Hnone. destruct self as [fm dm].
    cbn [delete_data_map file_map] in *. f_equal. now apply delete_id.
  - unfold ClearDeletes. cbn [delete_data_map file_map]. f_equal. apply delete_delete_eq.
Qed.

Lemma clear_then_add_replaces_witness :
  ClearDeletes "f" (AddDeleteData "g" (mkDeleteData [1%N]) DuckLakeDeleteMap.empty) =
  AddDeleteData "g" (mkDeleteData [1%N]) DuckLakeDeleteMap.empty.
Proof.
  destruct (clear_then_add_replaces "f" (mkDeleteData [])
              (AddDeleteData "g" (mkDeleteData [1%N]) DuckLakeDeleteMap.empty))
    as (_ & _ & Hnoop & _).
  apply Hnoop. reflexivity.
Defined.

End DeleteMapExtras.

(** ** Finalizing an update *)

Section FinalizeFacts.

Import DuckLakeUpdateFinalize.

Section WithChildren.

Variable copy_GetData : nat -> DataChunk * SourceResultType.t.
Variable insert_Sink : nat -> DataChunk -> SinkResultType.t.

Lemma produced_S n :
  produced copy_GetData (S n) = (produced copy_GetData n ++ [fst (copy_GetData n)])%list.
Proof. unfold produced. rewrite seq_S, map_app. reflexivity. Qed.

Lemma replay_ends n : forall fuel call sunk,
  (n < fuel)%nat ->
  (forall k, (call <= k < call + n)%nat ->
     DataChunk_size (fst (copy_GetData k)) <> 0%N /\
     snd (copy_GetData k) = SourceResultType.HAVE_MORE_OUTPUT) ->
  (DataChunk_size (fst (copy_GetData (call + n))) = 0%N \/
   snd (copy_GetData (call + n)) = SourceResultType.FINISHED) ->
  (forall k, (call <= k <= call + n)%nat ->
     insert_Sink k (fst (copy_GetData k)) <> SinkResultType.BLOCKED) ->
  replay copy_GetData insert_Sink fuel call sunk =
  Some ((sunk ++ map (fun k => fst (copy_GetData k)) (seq call n)
              ++ last_chunk copy_GetData (call + n))%list, Ok tt).
Proof.
  induction n as [|n IH]; intros fuel call sunk Hfuel Hmore Hend Hsink;
    (destruct fuel as [|fuel]; [lia|]); cbn [replay].
  - replace (call + 0)%nat with call in * by lia.
    unfold last_chunk. cbn [seq map app].
    pose proof (Hsink call ltac:(lia)) as Hs.
    destruct (copy_GetData call) as [chunk result]. cbn [fst snd] in *.
    destruct (N.eqb_spec (DataChunk_size chunk) 0); [now rewrite app_nil_r|].
    destruct Hend as [Hz | ->]; [contradiction|]. cbn.
    destruct (insert_Sink call chunk); try reflexivity. contradiction.
  - pose proof (Hmore call ltac:(lia)) as [Hnz Hres].
    pose proof (Hsink call ltac:(lia)) as Hs.
    replace (call + S n)%nat with (S call + n)%nat in * by lia.
    cbn [seq map]. 
    destruct (copy_GetData call) as [chunk result]. cbn [fst snd] in *.
    destruct (N.eqb_spec (DataChunk_size chunk) 0); [contradiction|].
    subst result. cbn [SourceResultType.is_BLOCKED SourceResultType.is_FINISHED].
    assert (Hrec : replay copy_GetData insert_Sink fuel (S call) (sunk ++ [chunk])%list =
                   Some (((sunk ++ [chunk]) ++ map (fun k => fst (copy_GetData k)) (seq (S call) n)
                          ++ last_chunk copy_GetData (S call + n))%list, Ok tt)).
    { apply IH; [lia | | exact Hend | ].
      - intros k Hk. apply Hmore. lia.
      - intros k Hk. apply Hsink. lia. }
    rewrite <- app_assoc in Hrec. cbn [app] in Hrec.
    destruct (insert_Sink call chunk); try contradiction;
      cbn [SinkResultType.is_BLOCKED]; exact Hrec.
Qed.

(** X9.  When the copy operator ends at its call [n] (earlier calls return
    non-empty chunks with more to come, call [n] returns an empty chunk or
    says it is finished) and nothing blocks, [Finalize] returns [READY] and
    has passed to the insert operator exactly the non-empty chunks the copy
    operator returned, each once, in order. *)
Theorem Finalize_replays (n fuel : nat)
        (Hfuel : (n < fuel)%nat)
        (Hends : ends_at copy_GetData n)
        (Hsync : forall call, (call <= n)%nat ->
                   insert_Sink call (fst (copy_GetData call)) <> SinkResultType.BLOCKED) :
  Finalize copy_GetData insert_Sink fuel
           SinkFinalizeType.READY SinkFinalizeType.READY SinkFinalizeType.READY =
  Some ((produced copy_GetData n ++ last_chunk copy_GetData n)%list,
        Ok SinkFinalizeType.READY).
Proof.
  destruct Hends as [Hmore Hend]. unfold Finalize. cbn [SinkFinalizeType.is_READY negb].
  rewrite (replay_ends n fuel 0 []); cbn [Nat.add app]; try assumption.
  - reflexivity.
  - intros k Hk. apply Hmore. lia.
  - intros k Hk. apply Hsync. lia.
Qed.

Lemma replay_sunk_nonempty fuel : forall call sunk sunk' r,
  replay copy_GetData insert_Sink fuel call sunk = Some (sunk', r) ->
  Forall (fun chunk => DataChunk_size chunk <> 0%N) sunk ->
  Forall (fun chunk => DataChunk_size chunk <> 0%N) sunk'.
Proof.
  induction fuel as [|fuel IH]; intros call sunk sunk' r; [discriminate|].
  cbn [replay]. destruct (copy_GetData call) as [chunk result].
  destruct (N.eqb_spec (DataChunk_size chunk) 0); [now intros [= <- _]|].
  destruct (SourceResultType.is_BLOCKED result); [now intros [= <- _]|].
  intros Hrun Hsunk.
  assert (Hext : Forall (fun c => DataChunk_size c <> 0%N) (sunk ++ [chunk])%list)
    by (apply Forall_app; split; [assumption | repeat constructor; assumption]).
  destruct (SinkResultType.is_BLOCKED _); [now injection Hrun as <- _|].
  destruct (SourceResultType.is_FINISHED result); [now injection Hrun as <- _|].
  eapply IH; eassumption.
Qed.

(** An empty chunk ends the replay before the result of the call is looked
    at. *)
Lemma replay_empty_first fuel call sunk :
  DataChunk_size (fst (copy_GetData call)) = 0%N ->
  replay copy_GetData insert_Sink (S fuel) call sunk = Some (sunk, Ok tt).
Proof.
  intros Hz. cbn [replay]. destruct (copy_GetData call) as [chunk result].
  cbn [fst] in Hz. now rewrite Hz.
Qed.

(** X10.  Whenever [Finalize] returns without exception, it returns
    [READY], the finalize calls of the copy, delete and insert operators all
    answered [READY], and no chunk it passed to the insert operator is
    empty. *)
Theorem Finalize_synchronous (fuel : nat)
        (copy_finalize delete_finalize insert_finalize : SinkFinalizeType.t)
        (sunk : list DataChunk) (result : SinkFinalizeType.t)
        (Hdone : Finalize copy_GetData insert_Sink fuel
                          copy_finalize delete_finalize insert_finalize =
                 Some (sunk, Ok result)) :
  result = SinkFinalizeType.READY /\
  copy_finalize = SinkFinalizeType.READY /\
  delete_finalize = SinkFinalizeType.READY /\
  insert_finalize = SinkFinalizeType.READY /\
  Forall (fun chunk => DataChunk_size chunk <> 0%N) sunk.
Proof.
  revert Hdone. unfold Finalize.
  destruct copy_finalize; cbn [SinkFinalizeType.is_READY negb]; try discriminate.
  destruct delete_finalize; cbn [SinkFinalizeType.is_READY negb]; try discriminate.
  destruct (replay copy_GetData insert_Sink fuel 0 []) as [[sunk' [u|e]]|] eqn:Hreplay;
    try discriminate.
  destruct insert_finalize; cbn [SinkFinalizeType.is_READY negb]; try discriminate.
  intros [= <- <-]. repeat split.
  eapply replay_sunk_nonempty; [exact Hreplay | constructor].
Qed.


Lemma replay_prefix n : forall fuel call sunk,
  (forall k, (call <= k < call + n)%nat ->
     DataChunk_size (fst (copy_GetData k)) <> 0%N /\
     snd (copy_GetData k) = SourceResultType.HAVE_MORE_OUTPUT /\
     insert_Sink k (fst (copy_GetData k)) <> SinkResultType.BLOCKED) ->
  replay copy_GetData insert_Sink (n + fuel) call sunk =
  replay copy_GetData insert_Sink fuel (call + n)
         (sunk ++ map (fun k => fst (copy_GetData k)) (seq call n))%list.
Proof.
  induction n as [|n IH]; intros fuel call sunk Hmore.
  - cbn [seq map Nat.add]. now rewrite app_nil_r, Nat.add_0_r.
  - destruct (Hmore call ltac:(lia)) as (Hnz & Hres & Hs).
    cbn [Nat.add replay seq map].
    destruct (copy_GetData call) as [chunk result]. cbn [fst snd] in *.
    destruct (N.eqb_spec (DataChunk_size chunk) 0); [contradiction|].
    subst result. cbn [SourceResultType.is_BLOCKED SourceResultType.is_FINISHED].
    destruct (insert_Sink call chunk); try contradiction; cbn [SinkResultType.is_BLOCKED].
    all: rewrite IH by (intros k Hk; apply Hmore; lia).
    all: rewrite <- app_assoc; cbn [app];
         now replace (S call + n)%nat with (call + S n)%nat by lia.
Qed.

(** X11.  When, after [n] calls that went through, the copy operator returns
    a non-empty chunk and reports [BLOCKED], or the insert operator answers
    [BLOCKED] to that chunk, [Finalize] throws the internal
    async-child error; a chunk that came with [BLOCKED] from the copy
    operator is not passed on. *)
Theorem Finalize_blocked (n fuel : nat)
        (Hmore : forall call, (call < n)%nat ->
                   DataChunk_size (fst (copy_GetData call)) <> 0%N /\
                   snd (copy_GetData call) = SourceResultType.HAVE_MORE_OUTPUT /\
                   insert_Sink call (fst (copy_GetData call)) <> SinkResultType.BLOCKED)
        (Hchunk : DataChunk_size (fst (copy_GetData n)) <> 0%N)
        (Hblocked : snd (copy_GetData n) = SourceResultType.BLOCKED \/
                    insert_Sink n (fst (copy_GetData n)) = SinkResultType.BLOCKED) :
  exists sunk,
    Finalize copy_GetData insert_Sink (n + S fuel)
             SinkFinalizeType.READY SinkFinalizeType.READY SinkFinalizeType.READY =
    Some (sunk, Raise AsyncChild) /\
    (snd (copy_GetData n) = SourceResultType.BLOCKED -> sunk = produced copy_GetData n).
Proof.
  unfold Finalize. cbn [SinkFinalizeType.is_READY negb].
  rewrite replay_prefix by (intros k Hk; apply Hmore; lia).
  cbn [Nat.add app replay]. fold (produced copy_GetData n).
  destruct (copy_GetData n) as [chunk result]. cbn [fst snd] in *.
  destruct (N.eqb_spec (DataChunk_size chunk) 0); [contradiction|].
  destruct result; cbn [SourceResultType.is_BLOCKED SourceResultType.is_FINISHED].
  3: { eexists. split; [reflexivity | auto]. }
  all: destruct Hblocked as [Hb | ->]; [discriminate|]; cbn [SinkResultType.is_BLOCKED];
       eexists; split; [reflexivity | discriminate].
Qed.

End WithChildren.

Lemma Finalize_replays_witness :
  Finalize Examples.copy_source Examples.insert_sink 5
           SinkFinalizeType.READY SinkFinalizeType.READY SinkFinalizeType.READY =
  Some ([Examples.chunk_of "a.parquet" [0; 1]%Z; Examples.chunk_of "b.parquet" [5]%Z],
        Ok SinkFinalizeType.READY).
Proof.
  apply (Finalize_replays Examples.copy_source Examples.insert_sink 1 5).
  - lia.
  - split.
    + intros call Hcall. assert (call = 0%nat) as -> by lia. split; [discriminate | reflexivity].
    + right. reflexivity.
  - intros call _. discriminate.
Defined.

Lemma Finalize_synchronous_witness :
  Forall (fun chunk => DataChunk_size chunk <> 0%N)
         [Examples.chunk_of "a.parquet" [0; 1]%Z; Examples.chunk_of "b.parquet" [5]%Z].
Proof.
  apply (Finalize_synchronous Examples.copy_source Examples.insert_sink 5
           SinkFinalizeType.READY SinkFinalizeType.READY SinkFinalizeType.READY
           _ SinkFinalizeType.READY).
  reflexivity.
Defined.

Lemma Finalize_blocked_witness :
  exists sunk,
    Finalize Examples.blocked_source Examples.insert_sink 3
             SinkFinalizeType.READY SinkFinalizeType.READY SinkFinalizeType.READY =
    Some (sunk, Raise AsyncChild) /\
    (snd (Examples.blocked_source 1) = SourceResultType.BLOCKED ->
     sunk = produced Examples.blocked_source 1).
Proof.
  apply (Finalize_blocked Examples.blocked_source Examples.insert_sink 1 1).
  - intros call Hcall. assert (call = 0%nat) as -> by lia.
    repeat split; discriminate.
  - discriminate.
  - left. reflexivity.
Defined.

End FinalizeFacts.

(** ** Conservation of the rows of an update *)

Section UpdateConservation.

Import DuckLakeUpdate.

Lemma rows_nonempty_chunks chunks : rows (nonempty_chunks chunks) = rows chunks.
Proof.
  induction chunks as [|chunk chunks IH]; [reflexivity|].
  cbn [nonempty_chunks List.filter]. fold (nonempty_chunks chunks).
  destruct (N.eqb_spec (DataChunk_size chunk) 0) as [Hzero|Hrows]; cbn [negb].
  - cbn [rows foldr]. fold (rows chunks). rewrite IH, Hzero. reflexivity.
  - cbn [rows foldr]. fold (rows chunks). fold (rows (nonempty_chunks chunks)).
    now rewrite IH.
Qed.

Lemma nonempty_chunks_length chunks :
  (length (nonempty_chunks chunks) <= length chunks)%nat.
Proof.
  induction chunks as [|chunk chunks IH]; [reflexivity|].
  cbn [nonempty_chunks List.filter]. fold (nonempty_chunks chunks).
  destruct (negb _); cbn [length]; lia.
Qed.

Lemma nonempty_chunks_rows chunks k chunk :
  nonempty_chunks chunks !! k = Some chunk -> DataChunk_size chunk <> 0%N.
Proof.
  intros Hk. apply list_elem_of_lookup_2, list_elem_of_In in Hk.
  apply filter_In in Hk as [_ Hrows].
  destruct (N.eqb_spec (DataChunk_size chunk) 0); [discriminate | assumption].
Qed.

(** The scan of the copy operator returns the buffered chunks and ends
    after them. *)
Lemma copy_op_GetData_produced copy_sunk :
  map (fun call => fst (copy_op_GetData copy_sunk call))
      (seq 0 (length (nonempty_chunks copy_sunk))) =
  nonempty_chunks copy_sunk.
Proof.
  unfold copy_op_GetData. generalize (nonempty_chunks copy_sunk) as buffered.
  intros buffered. apply list_eq. intros k.
  change (map ?f ?l) with (f <$> l). rewrite list_lookup_fmap.
  destruct (decide (k < length buffered)%nat) as [Hlt|Hge].
  - rewrite lookup_seq_lt by exact Hlt. cbn.
    destruct (lookup_lt_is_Some_2 buffered k Hlt) as [chunk Hchunk].
    now rewrite Hchunk.
  - rewrite lookup_seq_ge by lia. cbn. symmetry. apply lookup_ge_None. lia.
Qed.

Section WithExecutor.

Variable Execute : list Expression -> DataChunk -> Result (list (list Value)).
Variable op : Operator.

(** C2.  For a schedule of the engine in which every local state is
    created, used and combined once, over chunks the sink can read and
    [R <= INT64_MAX] rows in all: the run completes, [GetData] returns one
    row holding [R], and the chunks handed to the delete operator and to the
    copy operator are, in order, the row-identifier columns and the
    rewritten columns of the chunks sunk, each once, [R] rows each.  With
    the copy operator returning what was sunk into it, and an insert
    operator that does not block, [Finalize] then returns [READY] having
    passed to the insert operator the rewritten chunks that hold rows, each
    once, in order: [R] rows. *)
Theorem update_conservation (events : list Event) :
  scheduled ∅ events = true ->
  forallb (sinkable Execute op) (sunk_chunks events) = true ->
  (rows (sunk_chunks events) <= INT64_MAX)%N ->
  exists p,
    run Execute op start events = Ok p /\
    locals p = ∅ /\
    GetData (global p) =
      Ok (mkDataChunk [[VBigInt (Z.of_N (rows (sunk_chunks events)))]] 1) /\
    Forall2 (fun chunk c => make_delete_chunk chunk = Ok c)
            (sunk_chunks events) (delete_sunk (global p)) /\
    Forall2 (fun chunk c => make_insert_chunk Execute op chunk = Ok c)
            (sunk_chunks events) (copy_sunk (global p)) /\
    rows (delete_sunk (global p)) = rows (sunk_chunks events) /\
    rows (copy_sunk (global p)) = rows (sunk_chunks events) /\
    forall (insert_Sink : nat -> DataChunk -> SinkResultType.t) (fuel : nat),
      (forall call chunk, insert_Sink call chunk <> SinkResultType.BLOCKED) ->
      (length (sunk_chunks events) < fuel)%nat ->
      exists registered,
        DuckLakeUpdateFinalize.Finalize
          (copy_op_GetData (copy_sunk (global p))) insert_Sink fuel
          SinkFinalizeType.READY SinkFinalizeType.READY SinkFinalizeType.READY =
        Some (registered, Ok SinkFinalizeType.READY) /\
        registered = nonempty_chunks (copy_sunk (global p)) /\
        rows registered = rows (sunk_chunks events).
Proof.
  intros Hsched Hsink Hmax.
  destruct (sink_conservation Execute op events Hsched Hsink Hmax)
    as (p & Hrun & Hloc & Hdata & Hdelete & Hcopy & Hdrows & Hcrows).
  exists p. repeat (split; [assumption|]).
  intros insert_Sink fuel Hsync Hfuel.
  set (buffered := nonempty_chunks (copy_sunk (global p))).
  exists buffered. split; [|split; [reflexivity|]].
  - unfold DuckLakeUpdateFinalize.Finalize. cbn [SinkFinalizeType.is_READY negb].
    rewrite (replay_ends _ insert_Sink (length buffered) fuel 0 []).
    + cbn [Nat.add app]. unfold buffered at 1. rewrite copy_op_GetData_produced.
      unfold DuckLakeUpdateFinalize.last_chunk, copy_op_GetData. fold buffered.
      rewrite (proj2 (lookup_ge_None buffered (length buffered))) by lia.
      cbn. now rewrite app_nil_r.
    + pose proof (nonempty_chunks_length (copy_sunk (global p))) as Hle.
      apply Forall2_length in Hcopy. fold buffered in Hle. lia.
    + intros k Hk. unfold copy_op_GetData. fold buffered.
      destruct (lookup_lt_is_Some_2 buffered k ltac:(lia)) as [chunk Hchunk].
      rewrite Hchunk. cbn [fst snd]. split; [|reflexivity].
      eapply nonempty_chunks_rows. exact Hchunk.
    + left. cbn [Nat.add]. unfold copy_op_GetData. fold buffered.
      now rewrite (proj2 (lookup_ge_None buffered (length buffered))) by lia.
    + intros k _. apply Hsync.
  - unfold buffered. now rewrite rows_nonempty_chunks.
Qed.

End WithExecutor.

Lemma update_conservation_witness :
  exists p,
    run Examples.Execute Examples.update_op start Examples.schedule = Ok p /\
    GetData (global p) = Ok (mkDataChunk [[VBigInt 5]] 1) /\
    exists registered,
      DuckLakeUpdateFinalize.Finalize
        (copy_op_GetData (copy_sunk (global p))) Examples.insert_sink 8
        SinkFinalizeType.READY SinkFinalizeType.READY SinkFinalizeType.READY =
      Some (registered, Ok SinkFinalizeType.READY) /\
      rows registered = 5%N.
Proof.
  destruct (update_conservation Examples.Execute Examples.update_op Examples.schedule)
    as (p & Hrun & _ & Hdata & _ & _ & _ & _ & Hfinalize).
  - vm_compute. reflexivity.
  - vm_compute. reflexivity.
  - vm_compute. discriminate.
  - exists p. split; [exact Hrun|]. split; [exact Hdata|].
    destruct (Hfinalize Examples.insert_sink 8%nat) as (registered & Hdone & _ & Hrows).
    + intros call chunk. discriminate.
    + cbn. lia.
    + exists registered. split; [exact Hdone | exact Hrows].
Defined.

End UpdateConservation.

(** ** Schedules of the update sink *)

Section RunFacts.

Import DuckLakeUpdate.

Section WithExecutor.

Variable Execute : list Expression -> DataChunk -> Result (list (list Value)).
Variable op : Operator.

(** X12.  A schedule that runs to its end without exception had every child
    [Combine] answer [FINISHED]; and the global count differs from the one
    before the schedule only if the schedule has a combine event: sinking
    alone never changes what [GetData] reports. *)
Theorem run_requires_synchronous_children (events : list Event) (p p' : Pipeline)
        (Hrun : run Execute op p events = Ok p') :
  Forall (fun r => r = FINISHED) (combine_results events) /\
  (total_updated_count (global p') =
   total_updated_count (global p) \/ combine_results events <> []).
Proof.
  revert p Hrun. induction events as [|ev events IH]; intros p Hrun.
  - injection Hrun as <-. split; [constructor | now left].
  - cbn [run] in Hrun. destruct (step Execute op p ev) as [p1|] eqn:Hstep; [|discriminate].
    cbn [bind] in Hrun. destruct (IH p1 Hrun) as [Hall Hcount].
    destruct ev as [thread|thread chunk|thread copy_result delete_result];
      cbn [combine_results step] in *.
    + destruct (locals p !! thread); [discriminate|]. injection Hstep as <-.
      split; [exact Hall | exact Hcount].
    + destruct (locals p !! thread) as [lstate|]; [|discriminate].
      unfold Sink in Hstep.
      destruct (make_insert_chunk Execute op chunk); [|discriminate]. cbn [bind] in Hstep.
      destruct (make_delete_chunk chunk); [|discriminate]. cbn [bind fst snd] in Hstep.
      injection Hstep as <-. split; [exact Hall | exact Hcount].
    + destruct (locals p !! thread) as [lstate|]; [|discriminate].
      unfold Combine in Hstep.
      destruct copy_result, delete_result; try discriminate.
      split; [repeat constructor; exact Hall | right; discriminate].
Qed.
End WithExecutor.

Lemma run_requires_synchronous_children_witness :
  Forall (fun r => r = FINISHED) (combine_results Examples.schedule).
Proof.
  eapply (run_requires_synchronous_children
            Examples.Execute Examples.update_op Examples.schedule start).
  vm_compute. reflexivity.
Defined.

End RunFacts.

(** ** More on planning an update *)

Section PlanExtras.

Import DuckLakeCatalog.

Section WithBinder.

Variable BindScalarFunction : string -> list Expression -> Result Expression.

Lemma build_expression_map_other columns : forall i (m : gmap N N) c,
  c ∉ columns -> build_expression_map columns i m !! c = m !! c.
Proof.
  induction columns as [|c0 columns IH]; intros i m c Hnotin; [reflexivity|].
  cbn [build_expression_map]. apply not_elem_of_cons in Hnotin as [Hne Hnotin].
  rewrite IH by exact Hnotin. now apply lookup_insert_ne.
Qed.

Lemma build_expression_map_position columns : forall i (m : gmap N N) j c,
  NoDup columns -> columns !! j = Some c ->
  build_expression_map columns i m !! c = Some (i + N.of_nat j)%N.
Proof.
  induction columns as [|c0 columns IH]; intros i m j c Hnodup Hj; [discriminate|].
  apply NoDup_cons in Hnodup as [Hnotin Hnodup]. cbn [build_expression_map].
  destruct j as [|j]; cbn in Hj.
  - injection Hj as ->. rewrite build_expression_map_other by exact Hnotin.
    rewrite lookup_insert_eq. f_equal. lia.
  - rewrite (IH _ _ j c Hnodup Hj). f_equal. lia.
Qed.

Lemma at_index_Ok {A} (v : list A) i a : at_index v i = Ok a <-> v !! N.to_nat i = Some a.
Proof.
  unfold at_index. destruct (v !! N.to_nat i); split; intros H; try discriminate;
    now injection H as ->.
Qed.

Lemma reorder_expressions_spec op expression_map n : forall i acc result,
  reorder_expressions op expression_map n i acc = Ok result ->
  length result = (length acc + n)%nat /\
  (forall k, (k < length acc)%nat -> result !! k = acc !! k) /\
  (forall k, (k < n)%nat ->
     exists e, result !! (length acc + k)%nat = Some e /\
               op_expressions op !!
                 N.to_nat (default 0%N (expression_map !! (i + N.of_nat k)%N)) = Some e).
Proof.
  induction n as [|n IH]; intros i acc result Hre.
  - injection Hre as <-. split; [lia|]. split; [reflexivity|]. intros k Hk. lia.
  - cbn [reorder_expressions] in Hre.
    destruct (at_index (op_expressions op) _) as [e|] eqn:He; [|discriminate].
    cbn [bind] in Hre. apply at_index_Ok in He.
    destruct (IH _ _ _ Hre) as (Hlen & Hacc & Hnew).
    assert (Hlen1 : length (acc ++ [e])%list = S (length acc))
      by (rewrite length_app; cbn [length]; lia).
    rewrite Hlen1 in Hlen.
    assert (Hacc' : forall k, (k < S (length acc))%nat -> result !! k = (acc ++ [e])%list !! k)
      by (intros k Hk; apply Hacc; rewrite Hlen1; exact Hk).
    split; [lia|]. split.
    + intros k Hk. rewrite Hacc' by lia. now apply lookup_app_l.
    + intros k Hk. destruct k as [|k].
      * exists e. rewrite Nat.add_0_r, N.add_0_r. split; [|exact He].
        rewrite Hacc' by lia. rewrite lookup_app_r by lia.
        now rewrite Nat.sub_diag.
      * destruct (Hnew k ltac:(lia)) as (e' & Hr & Ho). exists e'. split.
        -- rewrite <- Hr, Hlen1. f_equal. lia.
        -- replace (i + N.of_nat (S k))%N with (i + 1 + N.of_nat k)%N by lia. exact Ho.
Qed.

Lemma add_partition_expressions_spec fields : forall expressions result,
  add_partition_expressions BindScalarFunction fields expressions = Ok result ->
  length result = (length expressions + length fields)%nat /\
  (forall k, (k < length expressions)%nat -> result !! k = expressions !! k) /\
  (forall i field, fields !! i = Some field ->
     exists return_type index e,
       result !! N.to_nat (partition_key_index field) =
         Some (BoundReferenceExpression return_type index) /\
       GetPartitionExpressionForUpdate BindScalarFunction
         (BoundReferenceExpression return_type index) field = Ok e /\
       result !! (length expressions + i)%nat = Some e).
Proof.
  induction fields as [|field fields IH]; intros expressions result Hadd.
  - injection Hadd as <-. split; [cbn; lia|]. split; [reflexivity|]. intros i f Hf. discriminate.
  - cbn [add_partition_expressions] in Hadd.
    destruct (at_index expressions (partition_key_index field)) as [child|] eqn:Hchild;
      [|discriminate].
    cbn [bind] in Hadd. apply at_index_Ok in Hchild.
    destruct child as [| |return_type index|]; try discriminate.
    destruct (GetPartitionExpressionForUpdate _ _ field) as [e|] eqn:He; [|discriminate].
    cbn [bind] in Hadd. destruct (IH _ _ Hadd) as (Hlen & Hpre & Hnew).
    assert (Hlen1 : length (expressions ++ [e])%list = S (length expressions))
      by (rewrite length_app; cbn [length]; lia).
    rewrite Hlen1 in Hlen.
    assert (Hpre' : forall k, (k < S (length expressions))%nat ->
                      result !! k = (expressions ++ [e])%list !! k)
      by (intros k Hk; apply Hpre; rewrite Hlen1; exact Hk).
    assert (Hkey : (N.to_nat (partition_key_index field) < length expressions)%nat)
      by (eapply lookup_lt_Some; exact Hchild).
    split; [cbn [length]; lia|]. split.
    + intros k Hk. rewrite Hpre' by lia. now apply lookup_app_l.
    + intros i f Hf. destruct i as [|i]; cbn in Hf.
      * injection Hf as <-. exists return_type, index, e. split; [|split; [exact He|]].
        -- rewrite Hpre' by lia. rewrite lookup_app_l by lia. exact Hchild.
        -- rewrite Nat.add_0_r, Hpre' by lia. rewrite lookup_app_r by lia.
           now rewrite Nat.sub_diag.
      * destruct (Hnew i f Hf) as (rt & idx & e' & Hk' & He' & Hr).
        exists rt, idx, e'. split; [exact Hk'|]. split; [exact He'|].
        rewrite <- Hr, Hlen1. f_equal. lia.
Qed.

(** What [PlanUpdate] has done when it returns. *)
Lemma PlanUpdate_inv (op : LogicalUpdate) (child_plan : nat)
      (plan plan' : list PhysicalOperator) (r : nat) :
  PlanUpdate BindScalarFunction op child_plan plan = (plan', Ok r) ->
  exists reordered expressions,
    return_chunk op = false /\
    existsb is_VALUE_DEFAULT (op_expressions op) = false /\
    reorder_expressions op (build_expression_map (op_columns op) 0 ∅)
                        (length (op_columns op)) 0 [] = Ok reordered /\
    match partition_data (table op) with
    | Some fields => add_partition_expressions BindScalarFunction fields reordered
    | None => Ok reordered
    end = Ok expressions /\
    plan' = (plan ++
             [ PhysicalCopyOp WRITE_ROW_ID;
               DuckLakeDeleteOp child_plan [0; 1; 2]%N (encryption_key (table op)) false;
               DuckLakeInsertOp (encryption_key (table op));
               DuckLakeUpdateOp (op_columns op) child_plan
                                (length plan) (S (length plan)) (S (S (length plan)))
                                expressions ])%list /\
    r = S (S (S (length plan))).
Proof.
  unfold PlanUpdate.
  destruct (return_chunk op); [discriminate|].
  destruct (existsb is_VALUE_DEFAULT (op_expressions op)) eqn:Hdef; [discriminate|].
  unfold Planner.bindM, Planner.Make, Planner.lift.
  destruct (reorder_expressions _ _ _ _ _) as [es|e]; [|discriminate].
  destruct (match partition_data (table op) with Some _ => _ | None => _ end) as [es'|e]
    eqn:Hpart; [|discriminate].
  rewrite !length_app. cbn [length]. intros [= <- <-].
  exists es, es'. rewrite <- !app_assoc. cbn [app].
  replace (length plan + 1)%nat with (S (length plan)) by lia.
  replace (S (length plan) + 1)%nat with (S (S (length plan))) by lia.
  replace (S (S (length plan)) + 1)%nat with (S (S (S (length plan)))) by lia.
  repeat split; assumption.
Qed.

(** X13.  When [PlanUpdate] returns, it has added to the plan, in this
    order, the copy operator that writes row ids, the delete operator over
    the child plan on row-id columns 0, 1, 2 with duplicates disallowed, the
    insert operator and the update operator that refers to the three; it
    returns the update operator, whose expressions are one per updated
    column followed by one per partition field. *)
Theorem PlanUpdate_shape (op : LogicalUpdate) (child_plan : nat)
        (plan plan' : list PhysicalOperator) (r : nat)
        (Hplanned : PlanUpdate BindScalarFunction op child_plan plan = (plan', Ok r)) :
  exists expressions,
    plan' = (plan ++
             [ PhysicalCopyOp WRITE_ROW_ID;
               DuckLakeDeleteOp child_plan [0; 1; 2]%N (encryption_key (table op)) false;
               DuckLakeInsertOp (encryption_key (table op));
               DuckLakeUpdateOp (op_columns op) child_plan
                                (length plan) (S (length plan)) (S (S (length plan)))
                                expressions ])%list /\
    r = S (S (S (length plan))) /\
    plan' !! r = Some (DuckLakeUpdateOp (op_columns op) child_plan
                         (length plan) (S (length plan)) (S (S (length plan)))
                         expressions) /\
    length expressions =
      (length (op_columns op) + length (default [] (partition_data (table op))))%nat.
Proof.
  destruct (PlanUpdate_inv _ _ _ _ _ Hplanned)
    as (es & es' & _ & _ & Hre & Hpart & -> & ->).
  exists es'. split; [reflexivity|]. split; [reflexivity|]. split.
  - rewrite lookup_app_r by lia.
    replace (S (S (S (length plan))) - length plan)%nat with 3%nat by lia. reflexivity.
  - destruct (reorder_expressions_spec _ _ _ _ _ _ Hre) as (Hlen & _). cbn [length] in Hlen.
    destruct (partition_data (table op)) as [fields|]; simpl.
    + destruct (add_partition_expressions_spec _ _ _ Hpart) as (Hlen' & _). lia.
    + injection Hpart as <-. lia.
Qed.

(** X14.  When [PlanUpdate] returns and the updated columns are distinct,
    the update operator has, for every position [i] below the number of
    updated columns, the expression [op.expressions[expression_map[i]]]: the
    SET expression given for column [i] when column [i] is among the updated
    columns, wherever it stands in the statement's column list, and the
    first SET expression when it is not (the map's default entry). *)
Theorem PlanUpdate_column_order (op : LogicalUpdate) (child_plan : nat)
        (plan plan' : list PhysicalOperator) (r : nat)
        (Hplanned : PlanUpdate BindScalarFunction op child_plan plan = (plan', Ok r))
        (Hdistinct : NoDup (op_columns op)) :
  exists copy_op delete_op insert_op expressions,
    plan' !! r = Some (DuckLakeUpdateOp (op_columns op) child_plan
                         copy_op delete_op insert_op expressions) /\
    forall i, (i < length (op_columns op))%nat ->
      exists e,
        expressions !! i = Some e /\
        (forall j, op_columns op !! j = Some (N.of_nat i) ->
                   op_expressions op !! j = Some e) /\
        (N.of_nat i ∉ op_columns op -> op_expressions op !! 0%nat = Some e).
Proof.
  destruct (PlanUpdate_inv _ _ _ _ _ Hplanned)
    as (es & es' & _ & _ & Hre & Hpart & -> & ->).
  destruct (reorder_expressions_spec _ _ _ _ _ _ Hre) as (Hlen & _ & Hnew).
  cbn [length Nat.add] in Hlen, Hnew.
  eexists _, _, _, es'. split.
  { rewrite lookup_app_r by lia.
    replace (S (S (S (length plan))) - length plan)%nat with 3%nat by lia. reflexivity. }
  intros i Hrange. destruct (Hnew i Hrange) as (e & Hes & Hop).
  rewrite N.add_0_l in Hop. exists e. split; [|split].
  - destruct (partition_data (table op)) as [fields|].
    + destruct (add_partition_expressions_spec _ _ _ Hpart) as (_ & Hpre & _).
      rewrite Hpre by lia. exact Hes.
    + injection Hpart as <-. exact Hes.
  - intros j Hcolumn.
    rewrite (build_expression_map_position _ 0 ∅ j _ Hdistinct Hcolumn) in Hop.
    simpl in Hop. now rewrite N.add_0_l, Nat2N.id in Hop.
  - intros Habsent.
    rewrite (build_expression_map_other _ 0 ∅ _ Habsent), lookup_empty in Hop.
    exact Hop.
Qed.

(** X15.  For the [i]-th partition field of a partitioned table the update
    operator carries, after the column expressions, one more expression: the
    field's transform (the reference itself for IDENTITY, the bound function
    [year], [month], [day] or [hour] otherwise) applied to a reference with
    the type and index of the expression at the field's key column, so the
    partition key is derived from the updated value. *)
Theorem PlanUpdate_partition_keys (op : LogicalUpdate) (child_plan : nat)
        (plan plan' : list PhysicalOperator) (r : nat)
        (fields : list DuckLakePartitionField) (i : nat) (field : DuckLakePartitionField)
        (Hplanned : PlanUpdate BindScalarFunction op child_plan plan = (plan', Ok r))
        (Hpartitioned : partition_data (table op) = Some fields)
        (Hfield : fields !! i = Some field) :
  exists copy_op delete_op insert_op expressions return_type index e,
    plan' !! r = Some (DuckLakeUpdateOp (op_columns op) child_plan
                         copy_op delete_op insert_op expressions) /\
    expressions !! N.to_nat (partition_key_index field) =
      Some (BoundReferenceExpression return_type index) /\
    expressions !! (length (op_columns op) + i)%nat = Some e /\
    match transform field with
    | IDENTITY => e = BoundReferenceExpression return_type index
    | YEAR => BindScalarFunction "year" [BoundReferenceExpression return_type index] = Ok e
    | MONTH => BindScalarFunction "month" [BoundReferenceExpression return_type index] = Ok e
    | DAY => BindScalarFunction "day" [BoundReferenceExpression return_type index] = Ok e
    | HOUR => BindScalarFunction "hour" [BoundReferenceExpression return_type index] = Ok e
    end.
Proof.
  destruct (PlanUpdate_inv _ _ _ _ _ Hplanned)
    as (es & es' & _ & _ & Hre & Hpart & -> & ->).
  rewrite Hpartitioned in Hpart.
  destruct (reorder_expressions_spec _ _ _ _ _ _ Hre) as (Hlen & _). cbn [length] in Hlen.
  destruct (add_partition_expressions_spec _ _ _ Hpart) as (_ & _ & Hnew).
  destruct (Hnew i field Hfield) as (rt & idx & e & Hkey & He & Hpos).
  eexists _, _, _, es', rt, idx, e. split; [|split; [exact Hkey|split]].
  - rewrite lookup_app_r by lia.
    replace (S (S (S (length plan))) - length plan)%nat with 3%nat by lia. reflexivity.
  - rewrite <- Hpos. f_equal. lia.
  - unfold GetPartitionExpressionForUpdate, GetFunction in He.
    destruct (transform field); try exact He. now injection He as <-.
Qed.

End WithBinder.

Lemma PlanUpdate_shape_witness :
  exists expressions,
    (PlanUpdate Examples.bind_function Examples.logical_update 0 [PhysicalCopyOp NONE]).1 !! 4%nat =
    Some (DuckLakeUpdateOp [1%N; 0%N] 0 1 2 3 expressions) /\
    length expressions = 3%nat.
Proof.
  destruct (PlanUpdate_shape Examples.bind_function Examples.logical_update 0
              [PhysicalCopyOp NONE]
              (PlanUpdate Examples.bind_function Examples.logical_update 0
                          [PhysicalCopyOp NONE]).1 4)
    as (expressions & _ & _ & Hop & Hlen).
  - vm_compute. reflexivity.
  - exists expressions. split; [exact Hop | exact Hlen].
Defined.

Lemma PlanUpdate_column_order_witness :
  exists copy_op delete_op insert_op expressions,
    (PlanUpdate Examples.bind_function Examples.logical_update 0 []).1 !! 3%nat =
    Some (DuckLakeUpdateOp [1%N; 0%N] 0 copy_op delete_op insert_op expressions) /\
    forall i, (i < 2)%nat ->
      exists e,
        expressions !! i = Some e /\
        (forall j, [1%N; 0%N] !! j = Some (N.of_nat i) ->
                   op_expressions Examples.logical_update !! j = Some e) /\
        (N.of_nat i ∉ [1%N; 0%N] ->
         op_expressions Examples.logical_update !! 0%nat = Some e).
Proof.
  apply (PlanUpdate_column_order Examples.bind_function Examples.logical_update 0 []
           (PlanUpdate Examples.bind_function Examples.logical_update 0 []).1 3).
  - vm_compute. reflexivity.
  - apply (bool_decide_unpack _). reflexivity.
Defined.

Lemma PlanUpdate_partition_keys_witness :
  exists copy_op delete_op insert_op expressions return_type index e,
    (PlanUpdate Examples.bind_function Examples.logical_update 0 []).1 !! 3%nat =
    Some (DuckLakeUpdateOp [1%N; 0%N] 0 copy_op delete_op insert_op expressions) /\
    expressions !! 0%nat = Some (BoundReferenceExpression return_type index) /\
    expressions !! 2%nat = Some e /\
    Examples.bind_function "year" [BoundReferenceExpression return_type index] = Ok e.
Proof.
  apply (PlanUpdate_partition_keys Examples.bind_function Examples.logical_update 0 []
           (PlanUpdate Examples.bind_function Examples.logical_update 0 []).1 3
           [mkPartitionField 0 YEAR] 0 (mkPartitionField 0 YEAR)).
  - vm_compute. reflexivity.
  - reflexivity.
  - reflexivity.
Defined.

End PlanExtras.

(* ===================================================================== *)
(** ** Binding the constraints of an update,
       [DuckLakeTableEntry::BindUpdateConstraints] *)
(* ===================================================================== *)

Section BindFacts.
Import BindUpdate.
Variable Expr : Type.
Variable ColumnRef : LogicalType -> N -> N -> Expr.

Lemma find_column_id_Some index ids : forall i j,
  find_column_id index ids i = Some j ->
  (i <= j)%N /\ ids !! N.to_nat (j - i) = Some index.
Proof.
  induction ids as [|id ids IH]; intros i j Hfind; [discriminate|].
  cbn [find_column_id] in Hfind. destruct (N.eqb_spec id index) as [->|Hne].
  - injection Hfind as <-. rewrite N.sub_diag. split; [lia | reflexivity].
  - destruct (IH _ _ Hfind) as [Hle Hlook]. split; [lia|].
    replace (N.to_nat (j - i)) with (S (N.to_nat (j - (i + 1)))) by lia. exact Hlook.
Qed.

Lemma existsb_eqb_elem (c : N) (l : list N) :
  existsb (fun col => (col =? c)%N) l = true <-> c ∈ l.
Proof.
  rewrite existsb_exists. split.
  - intros (x & Hin & Heq). apply N.eqb_eq in Heq as ->. now apply list_elem_of_In.
  - intros Hin. exists c. split; [now apply list_elem_of_In | apply N.eqb_refl].
Qed.

Lemma wired_refl st : wired ColumnRef st st.
Proof.
  destruct st as [[get proj] update]. cbn. repeat split.
  - exists []. now rewrite app_nil_r.
  - exists []. cbn. rewrite app_nil_r, !Nat.add_0_r.
    repeat split; auto; try constructor. intros k column Hk. discriminate.
Qed.

Lemma wired_step st0 st column : wired ColumnRef st0 st -> wired ColumnRef st0 (bind_column ColumnRef st column).
Proof.
  destruct st0 as [[get0 proj0] update0], st as [[get proj] update].
  intros (Hgt & Hpt & Hflag & [more Hids] & added & Hcols & Hle & Hlp & Hpe & Hpp & Hfresh & Hnodup & Hwire).
  unfold bind_column.
  destruct (existsb _ (columns update)) eqn:Hfound.
  { cbn. repeat split; eauto. exists added. repeat split; auto. }
  assert (Hnotin : Physical column ∉ columns update).
  { intros Hin. apply existsb_eqb_elem in Hin. congruence. }
  rewrite Hcols in Hnotin. apply not_elem_of_app in Hnotin as [Hnot0 Hnotadded].
  set (found_id := find_column_id (Physical column) (column_ids get) 0).
  assert (Hid : exists i ids',
             (match found_id with
              | Some i => (i, get)
              | None => (N.of_nat (length (column_ids get)),
                         mkGet (get_table_index get) (column_ids get ++ [Physical column])%list)
              end) = (i, mkGet (get_table_index get) ids') /\
             (exists more', ids' = (column_ids get ++ more')%list) /\
             ids' !! N.to_nat i = Some (Physical column)).
  { destruct found_id as [i|] eqn:Hf.
    - exists i, (column_ids get). split; [now destruct get|].
      split; [exists []; now rewrite app_nil_r|].
      apply find_column_id_Some in Hf as [_ Hf]. now rewrite N.sub_0_r in Hf.
    - exists (N.of_nat (length (column_ids get))), (column_ids get ++ [Physical column])%list.
      split; [reflexivity|]. split; [eauto|].
      rewrite Nat2N.id, lookup_app_r by lia. now rewrite Nat.sub_diag. }
  destruct Hid as (i & ids' & -> & [more' Hids'] & Hlook).
  cbn [get_table_index column_ids proj_table_index proj_expressions columns expressions
       update_is_del_and_insert wired].
  split; [exact Hgt|]. split; [exact Hpt|]. split; [exact Hflag|]. split.
  { exists (more ++ more' ++ [Physical column])%list.
    rewrite Hids', Hids. now rewrite <- !app_assoc. }
  exists (added ++ [column])%list.
  rewrite map_app, !length_app. cbn [map length].
  split; [now rewrite Hcols, <- app_assoc|].
  split; [lia|]. split; [lia|]. split.
  { intros k Hk. rewrite lookup_app_l by lia. now apply Hpe. }
  split.
  { intros k Hk. rewrite lookup_app_l by lia. now apply Hpp. }
  split.
  { apply Forall_app. split; [exact Hfresh | repeat constructor; exact Hnot0]. }
  split.
  { apply NoDup_app. split; [exact Hnodup|]. split; [|apply NoDup_singleton].
    intros x Hx Hx'. apply list_elem_of_singleton in Hx' as ->. contradiction. }
  intros k c Hk.
  destruct (decide (k < length added)%nat) as [Hlt|Hge].
  - rewrite lookup_app_l in Hk by exact Hlt.
    destruct (Hwire k c Hk) as (i' & He & Hp & Hc).
    exists i'. split; [|split].
    + rewrite lookup_app_l by lia. exact He.
    + rewrite lookup_app_l by lia. exact Hp.
    + rewrite Hids', <- app_assoc. apply lookup_app_l_Some. exact Hc.
  - assert (k = length added) as ->.
    { apply lookup_lt_Some in Hk. rewrite length_app in Hk. cbn in Hk. lia. }
    rewrite lookup_app_r in Hk by lia. rewrite Nat.sub_diag in Hk. injection Hk as <-.
    exists i. split; [|split].
    + rewrite lookup_app_r by lia. rewrite Hle, Nat.sub_diag. cbn.
      now rewrite Hpt, Hlp.
    + rewrite lookup_app_r by lia. rewrite Hlp, Nat.sub_diag. cbn. now rewrite Hgt.
    + apply lookup_app_l_Some. exact Hlook.
Qed.

Lemma wired_foldl table_columns : forall st0 st,
  wired ColumnRef st0 st -> wired ColumnRef st0 (foldl (bind_column ColumnRef) st table_columns).
Proof.
  induction table_columns as [|column table_columns IH]; intros st0 st Hw; [exact Hw|].
  cbn [foldl]. apply IH. now apply wired_step.
Qed.

(** Columns once in [update.columns] stay, and every column visited is in. *)
Lemma bind_column_covers st column :
  Physical column ∈ columns (bind_column ColumnRef st column).2.
Proof.
  destruct st as [[get proj] update]. unfold bind_column.
  destruct (existsb _ (columns update)) eqn:Hfound.
  - cbn. now apply existsb_eqb_elem.
  - destruct (find_column_id _ _ _); cbn; apply elem_of_app; right; apply list_elem_of_singleton;
      reflexivity.
Qed.

Lemma bind_column_keeps st column c :
  c ∈ columns st.2 -> c ∈ columns (bind_column ColumnRef st column).2.
Proof.
  destruct st as [[get proj] update]. unfold bind_column. cbn [snd].
  destruct (existsb _ (columns update)); [auto|].
  destruct (find_column_id _ _ _); cbn; intros Hin; apply elem_of_app; now left.
Qed.

Lemma foldl_keeps table_columns : forall st c,
  c ∈ columns st.2 ->
  c ∈ columns (foldl (bind_column ColumnRef) st table_columns).2.
Proof.
  induction table_columns as [|column table_columns IH]; intros st c Hin; [exact Hin|].
  cbn [foldl]. apply IH. now apply bind_column_keeps.
Qed.

Lemma foldl_covers table_columns : forall st column,
  column ∈ table_columns ->
  Physical column ∈ columns (foldl (bind_column ColumnRef) st table_columns).2.
Proof.
  induction table_columns as [|c table_columns IH]; intros st column Hin.
  - now apply elem_of_nil in Hin.
  - cbn [foldl]. apply elem_of_cons in Hin as [->|Hin].
    + apply foldl_keeps, bind_column_covers.
    + now apply IH.
Qed.

(** X16. Binding the constraints of an update marks it as delete plus
    insert and adds every physical column of the table that the update does
    not set yet: the given columns stay in front, each added column is new
    and added once, and the update's and the projection's expression lists
    grow by one expression per added column, the given ones untouched. *)
Theorem BindUpdateConstraints_completes table_columns get proj update :
  let '(get', proj', update') := BindUpdateConstraints ColumnRef table_columns get proj update in
  update_is_del_and_insert update' = true /\
  (forall column, column ∈ table_columns -> Physical column ∈ columns update') /\
  exists added,
    columns update' = (columns update ++ added)%list /\
    NoDup added /\
    (forall c, c ∈ added -> c ∉ columns update) /\
    length (expressions update') = (length (expressions update) + length added)%nat /\
    length (proj_expressions proj') = (length (proj_expressions proj) + length added)%nat /\
    take (length (expressions update)) (expressions update') = expressions update /\
    take (length (proj_expressions proj)) (proj_expressions proj') = proj_expressions proj.
Proof.
  unfold BindUpdateConstraints.
  set (st0 := (get, proj, mkUpdate (columns update) (expressions update) true)).
  pose proof (wired_foldl table_columns st0 st0 (wired_refl st0)) as Hw.
  pose proof (fun column => foldl_covers table_columns st0 column) as Hcov.
  destruct (foldl (bind_column ColumnRef) st0 table_columns) as [[get' proj'] update'].
  cbn [wired st0 snd columns expressions update_is_del_and_insert] in Hw, Hcov.
  destruct Hw as (_ & _ & Hflag & _ & added & Hcols & Hle & Hlp & Hpe & Hpp & Hfresh & Hnodup & _).
  split; [exact Hflag|]. split; [exact Hcov|].
  exists (map Physical added). rewrite length_map.
  split; [exact Hcols|]. split; [exact Hnodup|]. split.
  { intros c Hc. apply list_elem_of_fmap in Hc as (column & -> & Hin).
    rewrite Forall_forall in Hfresh. now apply Hfresh. }
  split; [exact Hle|]. split; [exact Hlp|].
  split; apply list_eq; intros k.
  - destruct (decide (k < length (expressions update))%nat) as [Hlt|Hge].
    + rewrite lookup_take_lt by exact Hlt. now apply Hpe.
    + rewrite lookup_take_ge by lia. symmetry. apply lookup_ge_None. lia.
  - destruct (decide (k < length (proj_expressions proj))%nat) as [Hlt|Hge].
    + rewrite lookup_take_lt by exact Hlt. now apply Hpp.
    + rewrite lookup_take_ge by lia. symmetry. apply lookup_ge_None. lia.
Qed.

(** X17. When the update comes with one expression per column, every column
    that binding adds is wired through: at the column's position the update
    holds a reference to an output of the projection, that output is a
    reference to a column of the scan, and the scan's column id there is the
    added column's physical index. *)
Theorem BindUpdateConstraints_wires table_columns get proj update
  (Hparallel : length (expressions update) = length (columns update)) :
  let '(get', proj', update') := BindUpdateConstraints ColumnRef table_columns get proj update in
  forall k c,
    (length (columns update) <= k)%nat ->
    columns update' !! k = Some c ->
    exists type j i,
      expressions update' !! k = Some (ColumnRef type (proj_table_index proj) j) /\
      proj_expressions proj' !! N.to_nat j = Some (ColumnRef type (get_table_index get) i) /\
      column_ids get' !! N.to_nat i = Some c.
Proof.
  unfold BindUpdateConstraints.
  set (st0 := (get, proj, mkUpdate (columns update) (expressions update) true)).
  pose proof (wired_foldl table_columns st0 st0 (wired_refl st0)) as Hw.
  destruct (foldl (bind_column ColumnRef) st0 table_columns) as [[get' proj'] update'].
  cbn [wired st0 columns expressions update_is_del_and_insert] in Hw.
  destruct Hw as (_ & _ & _ & _ & added & Hcols & _ & _ & _ & _ & _ & _ & Hwire).
  intros k c Hk Hc. rewrite Hcols, lookup_app_r in Hc by exact Hk.
  rewrite list_lookup_fmap in Hc.
  destruct (added !! (k - length (columns update))%nat) as [column|] eqn:Hadded; [|discriminate].
  injection Hc as <-.
  destruct (Hwire _ _ Hadded) as (i & He & Hp & Hid).
  exists (Type_ column), (N.of_nat (length (proj_expressions proj) + (k - length (columns update)))), i.
  rewrite Nat2N.id. split; [|split; [exact Hp | exact Hid]].
  rewrite <- He. f_equal. lia.
Qed.

End BindFacts.

Lemma BindUpdateConstraints_wires_witness :
  let update := Examples.bound_update in
  length (BindUpdate.expressions update) = length (BindUpdate.columns update) /\
  let '(get', proj', update') :=
    BindUpdate.BindUpdateConstraints Examples.column_ref Examples.table_columns
      Examples.bound_get Examples.bound_proj update in
  forall k c,
    (length (BindUpdate.columns update) <= k)%nat ->
    BindUpdate.columns update' !! k = Some c ->
    exists type j i,
      BindUpdate.expressions update' !! k =
        Some (Examples.column_ref type (BindUpdate.proj_table_index Examples.bound_proj) j) /\
      BindUpdate.proj_expressions proj' !! N.to_nat j =
        Some (Examples.column_ref type (BindUpdate.get_table_index Examples.bound_get) i) /\
      BindUpdate.column_ids get' !! N.to_nat i = Some c.
Proof.
  split; [reflexivity|].
  exact (BindUpdateConstraints_wires _ Examples.column_ref Examples.table_columns
           Examples.bound_get Examples.bound_proj Examples.bound_update eq_refl).
Defined.

(* ===================================================================== *)
(** ** More on file cleanup *)
(* ===================================================================== *)

Section CleanupExtras.

Import Cleanup.

Context `{CleanupServices}.

Lemma named_parameters_loop_no_timestamp type np : forall flags flags',
  named_parameters_loop type np flags = Ok flags' ->
  supplied "older_than" np = false ->
  from_timestamp flags' = from_timestamp flags.
Proof.
  induction np as [|entry np IH]; intros flags flags' Hloop Hnone.
  - cbn in Hloop. now injection Hloop as <-.
  - cbn [named_parameters_loop] in Hloop. unfold supplied in Hnone. cbn [existsb] in Hnone.
    apply orb_false_elim in Hnone as [Hentry Hnone].
    destruct (StringUtil.CIEquals (fst entry) "dry_run"); [now rewrite (IH _ _ Hloop Hnone)|].
    destruct (StringUtil.CIEquals (fst entry) "cleanup_all"); [now rewrite (IH _ _ Hloop Hnone)|].
    rewrite Hentry in Hloop. discriminate.
Qed.

(** The cutoff the loop leaves is the value of an [older_than] entry. *)
Lemma named_parameters_loop_timestamp type np : forall flags flags',
  named_parameters_loop type np flags = Ok flags' ->
  supplied "older_than" np = true ->
  exists name, StringUtil.CIEquals name "older_than" = true /\
               In (name, VTimestampTZ (from_timestamp flags')) np.
Proof.
  induction np as [|entry np IH]; intros flags flags' Hloop Hsome; [discriminate|].
  cbn [named_parameters_loop] in Hloop. unfold supplied in Hsome. cbn [existsb] in Hsome.
  fold (supplied "older_than" np) in Hsome.
  destruct (StringUtil.CIEquals (fst entry) "dry_run") eqn:Hd.
  { rewrite (CIEquals_distinct _ "dry_run" "older_than" eq_refl Hd) in Hsome.
    destruct (IH _ _ Hloop Hsome) as (name & Hname & Hin). exists name. split; [auto | now right]. }
  destruct (StringUtil.CIEquals (fst entry) "cleanup_all") eqn:Hc.
  { rewrite (CIEquals_distinct _ "cleanup_all" "older_than" eq_refl Hc) in Hsome.
    destruct (IH _ _ Hloop Hsome) as (name & Hname & Hin). exists name. split; [auto | now right]. }
  destruct (StringUtil.CIEquals (fst entry) "older_than") eqn:Ho; [|discriminate].
  destruct entry as [name value]. cbn [fst snd] in *.
  destruct value; try discriminate Hloop. cbn [GetValue_timestamp_tz bind] in Hloop.
  destruct (supplied "older_than" np) eqn:Hrest.
  - destruct (IH _ _ Hloop eq_refl) as (name' & Hname & Hin).
    exists name'. split; [auto | now right].
  - rewrite (named_parameters_loop_no_timestamp _ _ _ _ Hloop Hrest). cbn [from_timestamp].
    exists name. split; [exact Ho | now left].
Qed.

(** X18. The filter that a successful [CleanupBind] hands to the candidate
    query: with [older_than] supplied, the cutoff is the printed timestamp
    of an [older_than] entry, in single quotes, on [schedule_start] for old
    files and on [last_modified] for orphans; with only [cleanup_all], no
    filter; with neither, the default interval, which the orphan filter
    leaves unquoted. *)
Theorem CleanupBind_filter (type : CleanupType) (older_than_default : string)
        (named_parameters : list (string * Value)) (w : World) (r : BindResult)
        (Hbind : CleanupBind named_parameters type older_than_default w = Ok r) :
  Cleanup.type (bind_data r) = type /\
  exists filter,
    files (bind_data r) = GetFilesForCleanup filter type Separator (fs w) (metadata w) /\
    if supplied "older_than" named_parameters then
      supplied "cleanup_all" named_parameters = false /\
      exists name ts,
        StringUtil.CIEquals name "older_than" = true /\
        In (name, VTimestampTZ ts) named_parameters /\
        (Timestamp_ToString ts <> "" ->
         filter = match type with
                  | OLD_FILES => "WHERE schedule_start < '" +:+ Timestamp_ToString ts +:+ "'"
                  | ORPHANED_FILES =>
                      " AND last_modified < " +:+ "'" +:+ Timestamp_ToString ts +:+ "'"
                  end)
    else if supplied "cleanup_all" named_parameters then filter = ""
    else
      older_than_default <> "" /\
      filter = match type with
               | OLD_FILES =>
                   "WHERE schedule_start < '"
                   +:+ ("NOW() - INTERVAL '" +:+ older_than_default +:+ "'") +:+ "'"
               | ORPHANED_FILES =>
                   " AND last_modified < " +:+ ""
                   +:+ ("NOW() - INTERVAL '" +:+ older_than_default +:+ "'") +:+ ""
               end.
Proof.
  unfold CleanupBind in Hbind.
  destruct (named_parameters_loop type named_parameters initial_flags) as [flags|] eqn:Hloop;
    [|discriminate].
  cbn [bind] in Hbind.
  destruct (named_parameters_loop_flags type named_parameters _ _ Hloop) as (_ & Hc & Ht).
  cbn [initial_flags cleanup_all has_timestamp orb] in Hc, Ht.
  rewrite Hc, Ht in Hbind.
  destruct (supplied "older_than" named_parameters) eqn:Holder.
  - destruct (supplied "cleanup_all" named_parameters); [discriminate|].
    cbn [Bool.eqb andb orb] in Hbind. injection Hbind as <-. cbn [bind_data Cleanup.type files].
    split; [reflexivity|]. eexists. split; [reflexivity|]. split; [reflexivity|].
    destruct (named_parameters_loop_timestamp type named_parameters _ _ Hloop Holder)
      as (name & Hname & Hin).
    exists name, (from_timestamp flags). split; [exact Hname|]. split; [exact Hin|].
    intros Hne. unfold GetFilter. cbn [timestamp_filter default_interval Cleanup.type negb].
    destruct (String.eqb_spec (Timestamp_ToString (from_timestamp flags)) ""); [contradiction|].
    reflexivity.
  - destruct (supplied "cleanup_all" named_parameters).
    + cbn [Bool.eqb andb orb negb] in Hbind. injection Hbind as <-.
      cbn [bind_data Cleanup.type files]. split; [reflexivity|].
      eexists. split; [reflexivity|]. reflexivity.
    + cbn [Bool.eqb andb orb negb] in Hbind.
      destruct (String.eqb_spec older_than_default "") as [->|Hne]; [discriminate|].
      cbn [negb] in Hbind. injection Hbind as <-.
      cbn [bind_data Cleanup.type files]. split; [reflexivity|].
      eexists. split; [reflexivity|]. split; [exact Hne|].
      unfold GetFilter. cbn [timestamp_filter default_interval Cleanup.type negb].
      rewrite append_cons. cbn [String.eqb]. reflexivity.
Qed.



(** X20. [CleanupBind] succeeds only on the three parameter names, up to
    case. *)
Theorem CleanupBind_parameter_names (type : CleanupType) (older_than_default : string)
        (named_parameters : list (string * Value)) (w : World)
        (Hbind : is_Ok (CleanupBind named_parameters type older_than_default w) = true) :
  forall entry, In entry named_parameters ->
    StringUtil.CIEquals (fst entry) "dry_run" = true \/
    StringUtil.CIEquals (fst entry) "cleanup_all" = true \/
    StringUtil.CIEquals (fst entry) "older_than" = true.
Proof.
  unfold CleanupBind in Hbind.
  destruct (named_parameters_loop type named_parameters initial_flags) as [flags|] eqn:Hloop;
    [clear Hbind | discriminate].
  revert Hloop. generalize initial_flags.
  induction named_parameters as [|first rest IH]; intros flags0 Hloop entry Hin; [destruct Hin|].
  cbn [named_parameters_loop] in Hloop.
  destruct (StringUtil.CIEquals (fst first) "dry_run") eqn:Hd.
  { destruct Hin as [<-|Hin]; [auto | eauto]. }
  destruct (StringUtil.CIEquals (fst first) "cleanup_all") eqn:Hc.
  { destruct Hin as [<-|Hin]; [auto | eauto]. }
  destruct (StringUtil.CIEquals (fst first) "older_than") eqn:Ho; [|discriminate].
  destruct (GetValue_timestamp_tz (snd first)); [|discriminate]. cbn [bind] in Hloop.
  destruct Hin as [<-|Hin]; [auto | eauto].
Qed.

(** The output chunks of a pull, one by one. *)
Lemma pull_chunks calls : forall bd state w,
  (length (files bd) - offset state < calls)%nat ->
  exists w' state' outputs,
    pull calls bd state w = Some (w', state', outputs) /\
    (length (files bd) - offset state <= length outputs * STANDARD_VECTOR_SIZE)%nat /\
    (length outputs * STANDARD_VECTOR_SIZE
       < length (files bd) - offset state + STANDARD_VECTOR_SIZE)%nat /\
    forall k chunk, outputs !! k = Some chunk ->
      let batch := take STANDARD_VECTOR_SIZE
                        (drop (offset state + k * STANDARD_VECTOR_SIZE) (files bd)) in
      batch <> [] /\ chunk = mkDataChunk [paths batch] (N.of_nat (length batch)).
Proof.
  assert (HV : (0 < STANDARD_VECTOR_SIZE)%nat) by (unfold STANDARD_VECTOR_SIZE; lia).
  set (V := STANDARD_VECTOR_SIZE) in *.
  induction calls as [|calls IH]; intros bd state w Hcalls; [lia|].
  cbn [pull]. rewrite DuckLakeCleanupExecute_spec. fold V.
  destruct (Nat.leb_spec (length (files bd)) (offset state)) as [Hge|Hlt].
  - cbn [count N.eqb]. exists w, state, []. split; [reflexivity|].
    cbn [length Nat.mul]. split; [lia|]. split; [lia|]. intros k chunk Hk. discriminate.
  - set (batch := take V (drop (offset state) (files bd))).
    assert (Hbatch : length batch = Nat.min V (length (files bd) - offset state)).
    { unfold batch. now rewrite length_take, length_drop. }
    cbn zeta. cbn [count].
    destruct (N.eqb_spec (N.of_nat (length batch)) 0); [lia|].
    match goal with
    | |- context [pull _ _ ?st ?w1] =>
        destruct (IH bd st w1) as (w' & state' & outputs & Hpull & Hlow & Hhigh & Hchunks);
        [cbn [offset]; lia|]
    end.
    rewrite Hpull. cbn [offset] in Hlow, Hhigh, Hchunks.
    eexists _, state', (_ :: outputs). split; [reflexivity|].
    assert (Hmul : (length outputs * V = 0 \/ V <= length outputs * V)%nat).
    { destruct (length outputs); [left; reflexivity | right; cbn [Nat.mul]; lia]. }
    cbn [length Nat.mul]. split; [lia|]. split; [lia|].
    intros [|k] chunk Hk.
    + cbn in Hk. injection Hk as <-. cbn [Nat.mul]. rewrite Nat.add_0_r. fold batch.
      split; [|reflexivity]. intros Hnil.
      assert (Hzero : length batch = 0%nat) by now rewrite Hnil.
      lia.
    + cbn in Hk. assert (Hfull : length batch = V).
      { apply lookup_lt_Some in Hk. destruct outputs; [cbn in Hk; lia|].
        cbn [length Nat.mul] in Hhigh. lia. }
      specialize (Hchunks k chunk Hk). rewrite Hfull in Hchunks.
      cbn [Nat.mul]. now rewrite Nat.add_assoc.
Qed.

(** X21. The rows of a cleanup come in chunks of [STANDARD_VECTOR_SIZE]:
    pulled from the start, the [k]-th chunk holds the paths of the
    candidates from [k * 2048] on, at most 2048 of them and at least one,
    with its cardinality set to their number, and there are as many chunks
    as it takes to cover the candidates. *)
Theorem cleanup_output_batches (bd : CleanupBindData) (w : World) (calls : nat)
        (Hcalls : (length (files bd) < calls)%nat) :
  exists w' state' outputs,
    pull calls bd DuckLakeCleanupInit w = Some (w', state', outputs) /\
    (length (files bd) <= length outputs * STANDARD_VECTOR_SIZE)%nat /\
    (length outputs * STANDARD_VECTOR_SIZE < length (files bd) + STANDARD_VECTOR_SIZE)%nat /\
    forall k chunk, outputs !! k = Some chunk ->
      let batch := take STANDARD_VECTOR_SIZE (drop (k * STANDARD_VECTOR_SIZE) (files bd)) in
      (1 <= length batch <= STANDARD_VECTOR_SIZE)%nat /\
      data chunk = [paths batch] /\
      count chunk = N.of_nat (length batch).
Proof.
  destruct (pull_chunks calls bd DuckLakeCleanupInit w)
    as (w' & state' & outputs & Hpull & Hlow & Hhigh & Hchunks).
  { cbn [DuckLakeCleanupInit offset]. lia. }
  cbn [DuckLakeCleanupInit offset] in Hlow, Hhigh, Hchunks.
  rewrite Nat.sub_0_r in Hlow, Hhigh.
  exists w', state', outputs. split; [exact Hpull|]. split; [exact Hlow|]. split; [exact Hhigh|].
  intros k chunk Hk. destruct (Hchunks k chunk Hk) as [Hne ->]. cbn [Nat.add] in Hne |- *.
  cbn [data count]. split; [|split; reflexivity].
  split.
  - destruct (take _ _); [contradiction | cbn; lia].
  - rewrite length_take. lia.
Qed.

(** X22. Bind and run together: pulling a bound cleanup to exhaustion
    returns the candidates' paths; with [dry_run] supplied, or with no
    candidate, the file system and the catalog stay as they are; otherwise
    every candidate file is removed, once, and for old files, not for
    orphans, the candidates' catalog rows are removed, once. *)
Theorem cleanup_bound_run (type : CleanupType) (older_than_default : string)
        (named_parameters : list (string * Value)) (w : World) (r : BindResult)
        (calls : nat)
        (Hbind : CleanupBind named_parameters type older_than_default w = Ok r)
        (Hcalls : (length (files (bind_data r)) < calls)%nat) :
  exists state' outputs,
    pull calls (bind_data r) DuckLakeCleanupInit w =
      Some (if supplied "dry_run" named_parameters then w
            else match files (bind_data r) with
                 | [] => w
                 | _ :: _ =>
                     mkWorld (remove_files (files (bind_data r)) (fs w))
                             (match type with
                              | OLD_FILES =>
                                  RemoveFilesScheduledForCleanup (files (bind_data r))
                                                                 (metadata w)
                              | ORPHANED_FILES => metadata w
                              end)
                 end,
            state', outputs) /\
    output_rows outputs = paths (files (bind_data r)).
Proof.
  assert (Hdata : dry_run (bind_data r) = supplied "dry_run" named_parameters /\
                  Cleanup.type (bind_data r) = type).
  { unfold CleanupBind in Hbind.
    destruct (named_parameters_loop type named_parameters initial_flags) as [flags|] eqn:Hloop;
      [|discriminate].
    cbn [bind] in Hbind.
    destruct (named_parameters_loop_flags type named_parameters _ _ Hloop) as (Hd & _ & _).
    cbn [initial_flags flag_dry_run orb] in Hd.
    destruct (_ || _); [discriminate|].
    destruct (if has_timestamp flags then _ else _) as [tf di].
    injection Hbind as <-. cbn [bind_data dry_run Cleanup.type]. auto. }
  destruct Hdata as [Hdry Htype].
  destruct (pull_spec calls (bind_data r) DuckLakeCleanupInit w)
    as (state' & outputs & Hpull & Hrows).
  { cbn [DuckLakeCleanupInit offset]. lia. }
  cbn [DuckLakeCleanupInit offset executed negb] in Hpull, Hrows.
  rewrite drop_0 in Hrows. rewrite andb_true_r, Hdry in Hpull.
  exists state', outputs. split; [|exact Hrows]. rewrite Hpull. f_equal. f_equal. f_equal.
  destruct (supplied "dry_run" named_parameters); cbn [negb]; [now rewrite andb_false_r|].
  rewrite andb_true_r. unfold cleanup_effect. rewrite Htype.
  destruct (files (bind_data r)); reflexivity.
Qed.

End CleanupExtras.

(** ** The further cleanup properties on the example services *)

Section CleanupExtraExamples.

Import Cleanup.

Lemma CleanupBind_filter_witness :
  let r := mkBindResult (mkBindData Examples.candidates false false ORPHANED_FILES "5")
                        [LogicalType_of_id VARCHAR] ["path"] in
  @CleanupBind Examples.services [("Older_Than", VTimestampTZ 5)] ORPHANED_FILES ""
               Examples.world = Ok r /\
  Cleanup.type (bind_data r) = ORPHANED_FILES.
Proof.
  split; [reflexivity|].
  exact (proj1 (@CleanupBind_filter Examples.services ORPHANED_FILES ""
                  [("Older_Than", VTimestampTZ 5)] Examples.world _ eq_refl)).
Defined.


Lemma CleanupBind_parameter_names_witness :
  StringUtil.CIEquals "DRY_RUN" "dry_run" = true \/
  StringUtil.CIEquals "DRY_RUN" "cleanup_all" = true \/
  StringUtil.CIEquals "DRY_RUN" "older_than" = true.
Proof.
  apply (@CleanupBind_parameter_names Examples.services OLD_FILES ""
           [("cleanup_all", VBoolean true); ("DRY_RUN", VBoolean false)] Examples.world
           eq_refl ("DRY_RUN", VBoolean false)).
  right. left. reflexivity.
Defined.

Lemma cleanup_output_batches_witness :
  exists w' state' outputs,
    @pull Examples.services 3 (mkBindData Examples.candidates false false OLD_FILES "")
          DuckLakeCleanupInit Examples.world = Some (w', state', outputs) /\
    (2 <= length outputs * STANDARD_VECTOR_SIZE)%nat /\
    (length outputs * STANDARD_VECTOR_SIZE < 2 + STANDARD_VECTOR_SIZE)%nat /\
    forall k chunk, outputs !! k = Some chunk ->
      let batch := take STANDARD_VECTOR_SIZE
                        (drop (k * STANDARD_VECTOR_SIZE) Examples.candidates) in
      (1 <= length batch <= STANDARD_VECTOR_SIZE)%nat /\
      data chunk = [paths batch] /\
      count chunk = N.of_nat (length batch).
Proof.
  apply (@cleanup_output_batches Examples.services
           (mkBindData Examples.candidates false false OLD_FILES "") Examples.world 3).
  cbn [files length Examples.candidates]. lia.
Defined.

Lemma cleanup_bound_run_witness :
  exists state' outputs,
    @pull Examples.services 3
          (mkBindData Examples.candidates false false OLD_FILES "") DuckLakeCleanupInit
          Examples.world =
      Some (@mkWorld Examples.services
              (@remove_files Examples.services Examples.candidates (fs Examples.world))
              (@RemoveFilesScheduledForCleanup Examples.services Examples.candidates
                 (metadata Examples.world)),
            state', outputs) /\
    output_rows outputs = paths Examples.candidates.
Proof.
  apply (@cleanup_bound_run Examples.services OLD_FILES ""
           [("cleanup_all", VBoolean true)] Examples.world
           (mkBindResult (mkBindData Examples.candidates false false OLD_FILES "")
                         [LogicalType_of_id VARCHAR] ["path"]) 3 eq_refl).
  cbn [files bind_data length Examples.candidates]. lia.
Defined.

End CleanupExtraExamples.
